(** * Bouncing balls: a shallow embedding of [script.js]

    The development follows the second (game-over aware) revision of
    [script.js]: the classes [Ball], [MovingBall] and [Game].

    Modelling choices.
    - A JavaScript number is an exact rational ([Q]).  The comparisons
      [a < b] and [a > b] of the source are the boolean tests [Qltb a b]
      and [Qltb b a]; [Math.max] and [Math.min] are [Qmax] and [Qmin].  This
      is the arithmetic of the script without rounding.
    - Where rounding to binary64 decides a property, the code is modelled
      a second time on the primitive binary64 floats, in the module
      [Binary64], with the same tests and assignments.
    - [Math.random()] reads a global generator.  It is the record [Rng]: an
      infinite sequence of draws with a cursor, threaded by the state monad
      [Rand].
    - A ball keeps a reference to the one canvas element; its methods read
      [clientWidth] and [clientHeight] at call time.  The canvas is a field
      of the game and is handed to the ball methods.
    - The 2d context is the list of arcs painted since the last
      [clearRect]; the DOM elements the game holds are the fields of
      [Dom]. *)

From Stdlib Require Import QArith Qminmax Qabs Qround Lqa List Lia Bool Arith.
From Stdlib Require Floats.PrimFloat.
Import ListNotations.
Open Scope Q_scope.

(** ** Numbers *)

Definition Qltb (a b : Q) : bool :=
  match a ?= b with Lt => true | _ => false end.

(** ** The random source *)

Record Rng : Type := mkRng { draws : nat -> Q; cursor : nat }.

Definition Rand (A : Type) : Type := Rng -> A * Rng.

Definition ret {A : Type} (a : A) : Rand A := fun s => (a, s).

Definition bind {A B : Type} (m : Rand A) (k : A -> Rand B) : Rand B :=
  fun s => let (a, s') := m s in k a s'.

Notation "x <- m ;; k" := (bind m (fun x => k))
  (at level 61, m at next level, right associativity).

(** [Math.random()] *)
Definition random : Rand Q :=
  fun s => (draws s (cursor s), mkRng (draws s) (S (cursor s))).

(** The draws are those of [Math.random]: in [0, 1). *)
Definition unit_draws (d : nat -> Q) : Prop := forall n, 0 <= d n /\ d n < 1.

(** ** The canvas element and the 2d context *)

Record Canvas : Type := mkCanvas { clientWidth : Q; clientHeight : Q }.

(** One [arc] filled on the context; [arc_hue] is the hue of the
    [hsl(h, 80%, 60%)] fill style. *)
Record Arc : Type := mkArc { arc_x : Q; arc_y : Q; arc_radius : Q; arc_hue : Q }.

Definition Ctx : Type := list Arc.

(** ** class Ball *)

Module Ball.

Record t : Type := mk {
  x : Q; y : Q;
  speedX : Q; speedY : Q;
  radius : Q;
  hue : Q
}.

(** [constructor(canvas, x = null, y = null)]: [None] is [null].  The
    constructor also sets a field [isGameOver] of the ball to [false]; no
    method reads it, and it is left out. *)
Definition new (cv : Canvas) (x0 y0 : option Q) : Rand t :=
  r0 <- random ;;
  let radius := r0 * 15 + 10 in
  let cw := clientWidth cv in
  let ch := clientHeight cv in
  x <- match x0 with
       | Some v => ret v
       | None => r <- random ;; ret (r * (cw - radius * 2) + radius)
       end ;;
  y <- match y0 with
       | Some v => ret v
       | None => r <- random ;; ret (r * (ch - radius * 2) + radius)
       end ;;
  m1 <- random ;; s1 <- random ;;
  let speedX := (m1 * 2 + 1) * (if Qltb s1 0.5 then -1 else 1) in
  m2 <- random ;; s2 <- random ;;
  let speedY := (m2 * 2 + 1) * (if Qltb s2 0.5 then -1 else 1) in
  h <- random ;;
  ret (mk x y speedX speedY radius (h * 360)).

(** [draw()] *)
Definition draw (b : t) (ctx : Ctx) : Ctx :=
  ctx ++ [mkArc (x b) (y b) (radius b) (hue b)].

(** [update()] *)
Definition update (cv : Canvas) (b : t) : t :=
  let x1 := x b + speedX b in
  let y1 := y b + speedY b in
  let cw := clientWidth cv in
  let ch := clientHeight cv in
  let '(x2, sx2) :=
    if Qltb cw (x1 + radius b) then (cw - radius b, speedX b * -1)
    else if Qltb (x1 - radius b) 0 then (radius b, speedX b * -1)
    else (x1, speedX b) in
  let '(y2, sy2) :=
    if Qltb ch (y1 + radius b) then (ch - radius b, speedY b * -1)
    else if Qltb (y1 - radius b) 0 then (radius b, speedY b * -1)
    else (y1, speedY b) in
  mk x2 y2 sx2 sy2 (radius b) (hue b).

(** [clampToBounds()] *)
Definition clampToBounds (cv : Canvas) (b : t) : t :=
  let cw := clientWidth cv in
  let ch := clientHeight cv in
  mk (Qmax (radius b) (Qmin (x b) (cw - radius b)))
     (Qmax (radius b) (Qmin (y b) (ch - radius b)))
     (speedX b) (speedY b) (radius b) (hue b).

End Ball.

(** ** class MovingBall extends Ball *)

Module MovingBall.

Record t : Type := mk { base : Ball.t; ax : Q; ay : Q }.

Definition new (cv : Canvas) (x0 y0 : option Q) : Rand t :=
  b <- Ball.new cv x0 y0 ;;
  r1 <- random ;;
  r2 <- random ;;
  ret (mk b ((r1 - 0.5) * 0.02) ((r2 - 0.5) * 0.02)).

(** [update()]: the override, ending in [super.update()]. *)
Definition update (cv : Canvas) (m : t) : t :=
  let b := base m in
  let b1 := Ball.mk (Ball.x b) (Ball.y b)
                    (Ball.speedX b + ax m) (Ball.speedY b + ay m)
                    (Ball.radius b) (Ball.hue b) in
  mk (Ball.update cv b1) (ax m) (ay m).

(** Inherited methods. *)
Definition clampToBounds (cv : Canvas) (m : t) : t :=
  mk (Ball.clampToBounds cv (base m)) (ax m) (ay m).

Definition draw (m : t) (ctx : Ctx) : Ctx := Ball.draw (base m) ctx.

End MovingBall.

(** An element of [Game.balls]: an instance of either class, with the
    method calls dispatched on the class. *)
Inductive Entity : Type :=
| Simple (b : Ball.t)
| Accelerating (m : MovingBall.t).

Definition body (e : Entity) : Ball.t :=
  match e with Simple b => b | Accelerating m => MovingBall.base m end.

Definition acceleration (e : Entity) : option (Q * Q) :=
  match e with
  | Simple _ => None
  | Accelerating m => Some (MovingBall.ax m, MovingBall.ay m)
  end.

Definition update (cv : Canvas) (e : Entity) : Entity :=
  match e with
  | Simple b => Simple (Ball.update cv b)
  | Accelerating m => Accelerating (MovingBall.update cv m)
  end.

Definition clampToBounds (cv : Canvas) (e : Entity) : Entity :=
  match e with
  | Simple b => Simple (Ball.clampToBounds cv b)
  | Accelerating m => Accelerating (MovingBall.clampToBounds cv m)
  end.

Definition draw (e : Entity) (ctx : Ctx) : Ctx :=
  match e with
  | Simple b => Ball.draw b ctx
  | Accelerating m => MovingBall.draw m ctx
  end.

Definition position (e : Entity) : Q * Q := (Ball.x (body e), Ball.y (body e)).
Definition velocity (e : Entity) : Q * Q :=
  (Ball.speedX (body e), Ball.speedY (body e)).

(** ** class Game *)

(** The DOM state the game reads and writes: the [disabled] attribute of
    the two buttons, whether [gameOverBox] carries the class [hidden], and
    the number shown by [ballCount].  The [style] writes of
    [disableButtons] and [enableButtons] are presentation only and are not
    modelled. *)
Record Dom : Type := mkDom {
  addBtn_disabled : bool;
  clearBtn_disabled : bool;
  gameOverBox_hidden : bool;
  ballCount : nat
}.

Inductive Phase : Type := Playing | Over.

Module Game.

(** [isGameOver] is never assigned by the constructor: it starts out
    [undefined] ([None]). *)
Record t : Type := mk {
  canvas : Canvas;
  ctx : Ctx;
  balls : list Entity;
  isGameOver : option bool;
  dom : Dom
}.

(** JavaScript truthiness of [this.isGameOver]. *)
Definition truthy (v : option bool) : bool :=
  match v with Some true => true | _ => false end.

Definition phase (g : t) : Phase :=
  if truthy (isGameOver g) then Over else Playing.

Definition set_balls (g : t) (bs : list Entity) : t :=
  mk (canvas g) (ctx g) bs (isGameOver g) (dom g).

Definition set_isGameOver (g : t) (v : bool) : t :=
  mk (canvas g) (ctx g) (balls g) (Some v) (dom g).

Definition set_dom (g : t) (d : Dom) : t :=
  mk (canvas g) (ctx g) (balls g) (isGameOver g) d.

Definition set_ctx (g : t) (c : Ctx) : t :=
  mk (canvas g) c (balls g) (isGameOver g) (dom g).

Definition set_canvas (g : t) (cv : Canvas) : t :=
  mk cv (ctx g) (balls g) (isGameOver g) (dom g).

Definition disableButtons (g : t) : t :=
  let d := dom g in
  set_dom g (mkDom true true (gameOverBox_hidden d) (ballCount d)).

Definition enableButtons (g : t) : t :=
  let d := dom g in
  set_dom g (mkDom false false (gameOverBox_hidden d) (ballCount d)).

Definition set_gameOverBox_hidden (g : t) (h : bool) : t :=
  let d := dom g in
  set_dom g (mkDom (addBtn_disabled d) (clearBtn_disabled d) h (ballCount d)).

Definition updateBallCount (g : t) : t :=
  let d := dom g in
  set_dom g (mkDom (addBtn_disabled d) (clearBtn_disabled d)
                   (gameOverBox_hidden d) (length (balls g))).

(** [checkGameOver()]: the returned flag and the game after the call. *)
Definition checkGameOver (g : t) : bool * t :=
  if (100 <=? length (balls g))%nat && negb (truthy (isGameOver g)) then
    let g1 := set_isGameOver g true in
    let g2 := disableButtons g1 in
    let g3 := set_gameOverBox_hidden g2 false in
    (true, g3)
  else (false, g).

Definition push (g : t) (e : Entity) : t := set_balls g (balls g ++ [e]).

Definition addRandomBall (g : t) : Rand t :=
  let (stop, g) := checkGameOver g in
  if stop then ret g else
  r <- random ;;
  ball <- (if Qltb r 0.5
           then b <- Ball.new (canvas g) None None ;; ret (Simple b)
           else m <- MovingBall.new (canvas g) None None ;; ret (Accelerating m)) ;;
  let ball := clampToBounds (canvas g) ball in
  ret (updateBallCount (push g ball)).

(** [addBallOnClick(e)]; [x] and [y] are [e.clientX - rect.left] and
    [e.clientY - rect.top]. *)
Definition addBallOnClick (x y : Q) (g : t) : Rand t :=
  let (stop, g) := checkGameOver g in
  if stop then ret g else
  r <- random ;;
  ball <- (if Qltb r 0.5
           then b <- Ball.new (canvas g) (Some x) (Some y) ;; ret (Simple b)
           else m <- MovingBall.new (canvas g) (Some x) (Some y) ;;
                ret (Accelerating m)) ;;
  let ball := clampToBounds (canvas g) ball in
  ret (updateBallCount (push g ball)).

Definition addBallOnTouch (x y : Q) (g : t) : Rand t :=
  let (stop, g) := checkGameOver g in
  if stop then ret g else
  m <- MovingBall.new (canvas g) (Some x) (Some y) ;;
  let ball := clampToBounds (canvas g) (Accelerating m) in
  ret (updateBallCount (push g ball)).

Definition clearBalls (g : t) : t :=
  if clearBtn_disabled (dom g) then g
  else updateBallCount (set_balls g []).

(** [for (let i = 0; i < n; i++) this.addRandomBall();] *)
Fixpoint addRandomBalls (n : nat) (g : t) : Rand t :=
  match n with
  | O => ret g
  | S n' => g' <- addRandomBall g ;; addRandomBalls n' g'
  end.

Definition restartGame (g : t) : Rand t :=
  let g := set_isGameOver g false in
  let g := set_balls g [] in
  let g := enableButtons g in
  let g := set_gameOverBox_hidden g true in
  let g := set_isGameOver g false in
  g <- addRandomBalls 20 g ;;
  ret (updateBallCount g).

(** [clear()] *)
Definition clear (g : t) : t := set_ctx g [].

(** The [for] of [loop]: [bs] are the balls still to visit, [c] the
    context so far; the result is the balls after the pass and the
    context. *)
Fixpoint loop_from (frozen : option bool) (cv : Canvas)
         (bs : list Entity) (c : Ctx) : list Entity * Ctx :=
  match bs with
  | [] => ([], c)
  | ball :: rest =>
      let ball := if negb (truthy frozen) then update cv ball else ball in
      let c := draw ball c in
      let (rest', c') := loop_from frozen cv rest c in
      (ball :: rest', c')
  end.

(** One run of [loop]; [requestAnimationFrame] makes the host run it
    again (the event [AnimationFrame] below). *)
Definition loop (g : t) : t :=
  let g := clear g in
  let (bs, c) := loop_from (isGameOver g) (canvas g) (balls g) (ctx g) in
  set_ctx (set_balls g bs) c.

(** The resize handler, once the 80 ms timer fires.  [resizeCanvas]
    only sets the backing-store size and the context transform, which are
    not modelled. *)
Definition onResize (g : t) : t :=
  set_balls g (map (clampToBounds (canvas g)) (balls g)).

(** [new Game(canvasId)], given the canvas element and the DOM as the
    page has them. *)
Definition new (cv : Canvas) (d : Dom) : Rand t :=
  let g := mk cv [] [] None d in
  g <- addRandomBalls 20 g ;;
  ret (loop g).

End Game.

(** ** The host: events delivered to the listeners *)

Inductive Event : Type :=
| ClickAddBtn
| ClickClearBtn
| ClickRestartBtn
| ClickCanvas (x y : Q)
| TouchStart (x y : Q)
| CanvasResized (w h : Q)
| ResizeTimeout
| AnimationFrame.

(** A browser delivers no [click] to a button whose [disabled] attribute
    is set. [CanvasResized] is the layout changing the client size of the
    canvas; [ResizeTimeout] is the debounced handler running. *)
Definition dispatch (e : Event) (g : Game.t) : Rand Game.t :=
  match e with
  | ClickAddBtn =>
      if addBtn_disabled (Game.dom g) then ret g else Game.addRandomBall g
  | ClickClearBtn =>
      if clearBtn_disabled (Game.dom g) then ret g else ret (Game.clearBalls g)
  | ClickRestartBtn => Game.restartGame g
  | ClickCanvas x y => Game.addBallOnClick x y g
  | TouchStart x y => Game.addBallOnTouch x y g
  | CanvasResized w h => ret (Game.set_canvas g (mkCanvas w h))
  | ResizeTimeout => ret (Game.onResize g)
  | AnimationFrame => ret (Game.loop g)
  end.

Fixpoint run (es : list Event) (g : Game.t) : Rand Game.t :=
  match es with
  | [] => ret g
  | e :: es' => g' <- dispatch e g ;; run es' g'
  end.

(** The session after the page has loaded and the events [es] have been
    handled. *)
Definition session (cv : Canvas) (d : Dom) (s : Rng) (es : list Event)
  : Game.t * Rng :=
  (g <- Game.new cv d ;; run es g) s.

Definition is_spawn (e : Event) : bool :=
  match e with
  | ClickAddBtn | ClickCanvas _ _ | TouchStart _ _ => true
  | _ => false
  end.

(** ** Concrete data for the scenarios *)

Definition canvas_400x300 : Canvas := mkCanvas 400 300.
Definition page_dom : Dom := mkDom false false true 0.
Definition half_draws : Rng := mkRng (fun _ => 0.5) 0.

Definition count (w : Game.t * Rng) : nat := length (Game.balls (fst w)).

(** ** Vocabulary of the statements *)

Inductive Axis : Type := Horizontal | Vertical.

(** [clientWidth] or [clientHeight]. *)
Definition dimension (cv : Canvas) (a : Axis) : Q :=
  match a with Horizontal => clientWidth cv | Vertical => clientHeight cv end.

(** [x] or [y]. *)
Definition coord (b : Ball.t) (a : Axis) : Q :=
  match a with Horizontal => Ball.x b | Vertical => Ball.y b end.

(** [speedX] or [speedY]. *)
Definition speed (b : Ball.t) (a : Axis) : Q :=
  match a with Horizontal => Ball.speedX b | Vertical => Ball.speedY b end.

Definition radius (e : Entity) : Q := Ball.radius (body e).

(** The three ways a session asks for a ball, with the method behind
    each. *)
Inductive Spawn : Type :=
| SpawnRandom
| SpawnClick (x y : Q)
| SpawnTouch (x y : Q).

Definition spawn (k : Spawn) (g : Game.t) : Rand Game.t :=
  match k with
  | SpawnRandom => Game.addRandomBall g
  | SpawnClick x y => Game.addBallOnClick x y g
  | SpawnTouch x y => Game.addBallOnTouch x y g
  end.

(** What [draw] paints for an entity. *)
Definition arc_of (e : Entity) : Arc :=
  let b := body e in mkArc (Ball.x b) (Ball.y b) (Ball.radius b) (Ball.hue b).

Definition small (a : Q) : Prop := - 0.01 <= a /\ a < 0.01.

Definition small_acceleration (e : Entity) : Prop :=
  match acceleration e with
  | None => True
  | Some (ax, ay) => small ax /\ small ay
  end.

(** The invariant of the sessions: the add button is disabled exactly in
    phase [Over], a playing session holds at most 100 balls, and a session
    that is over holds at least 100 with the clear button disabled. *)
Definition coherent (g : Game.t) : Prop :=
  addBtn_disabled (Game.dom g) = Game.truthy (Game.isGameOver g)
  /\ (Game.phase g = Playing -> (length (Game.balls g) <= 100)%nat)
  /\ (Game.phase g = Over ->
      clearBtn_disabled (Game.dom g) = true
      /\ (100 <= length (Game.balls g))%nat).

(** ** [Game.resizeCanvas] *)

(** What [resizeCanvas] writes: the size of the backing store of the
    canvas ([canvas.width], [canvas.height]) and the scale [dpr] of
    [ctx.setTransform(dpr, 0, 0, dpr, 0, 0)]. *)
Record BackingStore : Type := mkBackingStore {
  width : Z;
  height : Z;
  scale : Q
}.

(** [window.devicePixelRatio || 1]: [None] is [undefined]; [undefined]
    and 0 are falsy. *)
Definition or_1 (devicePixelRatio : option Q) : Q :=
  match devicePixelRatio with
  | Some q => if Qeq_bool q 0 then 1 else q
  | None => 1
  end.

Definition resizeCanvas (devicePixelRatio : option Q) (cv : Canvas)
  : BackingStore :=
  let dpr := Qmax (or_1 devicePixelRatio) 1 in
  let cssWidth := clientWidth cv in
  let cssHeight := clientHeight cv in
  mkBackingStore (Qfloor (cssWidth * dpr)) (Qfloor (cssHeight * dpr)) dpr.

(** ** The ball in binary64 *)

(** [Ball.update] and the arithmetic of the [Ball] constructor once more,
    on the binary64 numbers of JavaScript: [+], [-] and [*] round to
    nearest, and [a > b] is [ltb b a] (false when an operand is NaN). *)
Module Binary64.
Import PrimFloat.

Record Ball : Type := mkBall {
  x : float; y : float;
  speedX : float; speedY : float;
  radius : float
}.

(** [update()], with [cw] and [ch] the client size of the canvas. *)
Definition update (cw ch : float) (b : Ball) : Ball :=
  let x1 := (x b + speedX b)%float in
  let y1 := (y b + speedY b)%float in
  let '(x2, sx2) :=
    if ltb cw (x1 + radius b)%float then ((cw - radius b)%float, (speedX b * -1)%float)
    else if ltb (x1 - radius b)%float 0%float then (radius b, (speedX b * -1)%float)
    else (x1, speedX b) in
  let '(y2, sy2) :=
    if ltb ch (y1 + radius b)%float then ((ch - radius b)%float, (speedY b * -1)%float)
    else if ltb (y1 - radius b)%float 0%float then (radius b, (speedY b * -1)%float)
    else (y1, speedY b) in
  mkBall x2 y2 sx2 sy2 (radius b).

(** [Math.random() * 15 + 10], for the draw [r]. *)
Definition new_radius (r : float) : float := (r * 15 + 10)%float.

(** [(Math.random() * 2 + 1) * (Math.random() < 0.5 ? -1 : 1)], for the
    draws [m] and [t]. *)
Definition new_speed (m t : float) : float :=
  ((m * 2 + 1) * (if ltb t 0.5 then -1 else 1))%float.

Definition dimension (cw ch : float) (a : Axis) : float :=
  match a with Horizontal => cw | Vertical => ch end.

Definition coord (b : Ball) (a : Axis) : float :=
  match a with Horizontal => x b | Vertical => y b end.

Definition speed (b : Ball) (a : Axis) : float :=
  match a with Horizontal => speedX b | Vertical => speedY b end.

(** The largest value of [Math.random()]: 1 - 2^-53. *)
Definition largest_draw : float := 0x1.fffffffffffffp-1%float.

End Binary64.

(** ** Vocabulary of the further properties *)

(** The whole disc of the entity is on the canvas. *)
Definition within (cv : Canvas) (e : Entity) : Prop :=
  forall a : Axis,
    radius e <= coord (body e) a
    /\ coord (body e) a <= dimension cv a - radius e.

(** The canvas is at least as large as the disc of the entity. *)
Definition fits (cv : Canvas) (e : Entity) : Prop :=
  forall a : Axis, 2 * radius e <= dimension cv a.

(** A speed as the constructor draws it: magnitude from 1 to 3. *)
Definition fast (v : Q) : Prop := 1 <= Qabs v /\ Qabs v <= 3.

Definition radius_in_range (e : Entity) : Prop :=
  10 <= radius e /\ radius e <= 25.

(** What the constructors give an entity made for the spawn [k], before
    it is clamped. *)
Definition born (cv : Canvas) (k : Spawn) (e : Entity) : Prop :=
  radius_in_range e
  /\ (forall a : Axis, fast (speed (body e) a))
  /\ (0 <= Ball.hue (body e) /\ Ball.hue (body e) < 360)
  /\ match k with
     | SpawnRandom => fits cv e -> within cv e
     | SpawnClick x y => position e = (x, y)
     | SpawnTouch x y => position e = (x, y) /\ acceleration e <> None
     end.

(** The position a spawn hands to the constructor: none for the add
    button, the point of the event for a click or a touch. *)
Definition point (k : Spawn) : option Q * option Q :=
  match k with
  | SpawnRandom => (None, None)
  | SpawnClick x y | SpawnTouch x y => (Some x, Some y)
  end.

(** An entity as a spawn appends it. *)
Definition spawned (cv : Canvas) (k : Spawn) (e : Entity) : Prop :=
  exists e0 : Entity, e = clampToBounds cv e0 /\ born cv k e0.

(** The counter, the buttons and the game-over box agree with the
    state of the game. *)
Definition counter_shows_count (g : Game.t) : Prop :=
  ballCount (Game.dom g) = length (Game.balls g).

Definition controls_follow_phase (g : Game.t) : Prop :=
  addBtn_disabled (Game.dom g) = Game.truthy (Game.isGameOver g)
  /\ clearBtn_disabled (Game.dom g) = Game.truthy (Game.isGameOver g)
  /\ gameOverBox_hidden (Game.dom g) = negb (Game.truthy (Game.isGameOver g)).

(** A ball as it is for its whole life: the radius drawn at creation, and
    for a plain [Ball] speeds of the magnitude drawn at creation. *)
Definition steady (e : Entity) : Prop :=
  radius_in_range e
  /\ (acceleration e = None -> forall a : Axis, fast (speed (body e) a)).

(** * Properties *)

(** ** Comparisons, [Math.max] and [Math.min] *)

Lemma Qltb_true (a b : Q) : Qltb a b = true <-> a < b.
Proof.
  unfold Qltb. rewrite Qlt_alt.
  destruct (a ?= b); split; intros H; congruence.
Qed.

Lemma Qltb_false (a b : Q) : Qltb a b = false <-> b <= a.
Proof.
  split; intros H.
  - apply Qnot_lt_le. intros L. apply Qltb_true in L. congruence.
  - destruct (Qltb a b) eqn:E; [| reflexivity].
    apply Qltb_true in E. exfalso. now apply (Qle_not_lt b a).
Qed.

Lemma Qltb_cases (a b : Q) :
  (Qltb a b = true /\ a < b) \/ (Qltb a b = false /\ b <= a).
Proof.
  destruct (Qltb a b) eqn:E.
  - left. split; [reflexivity | now apply Qltb_true].
  - right. split; [reflexivity | now apply Qltb_false].
Qed.

Lemma Qmax_cases (a b : Q) :
  (Qmax a b = b /\ a < b) \/ (Qmax a b = a /\ b <= a).
Proof.
  unfold Qmax, GenericMinMax.gmax.
  destruct (Qcompare_spec a b) as [H | H | H].
  - right. split; [reflexivity | rewrite H; apply Qle_refl].
  - left. split; [reflexivity | assumption].
  - right. split; [reflexivity | now apply Qlt_le_weak].
Qed.

Lemma Qmin_cases (a b : Q) :
  (Qmin a b = a /\ a <= b) \/ (Qmin a b = b /\ b < a).
Proof.
  unfold Qmin, GenericMinMax.gmin.
  destruct (Qcompare_spec a b) as [H | H | H].
  - left. split; [reflexivity | rewrite H; apply Qle_refl].
  - left. split; [reflexivity | now apply Qlt_le_weak].
  - right. split; [reflexivity | assumption].
Qed.

(** ** One axis of [update] and [clampToBounds] *)

Lemma update_axis (cv : Canvas) (b : Ball.t) (a : Axis) :
  let p := coord b a + speed b a in
  let r := Ball.radius b in
  let d := dimension cv a in
  (coord (Ball.update cv b) a, speed (Ball.update cv b) a) =
  (if Qltb d (p + r) then (d - r, speed b a * -1)
   else if Qltb (p - r) 0 then (r, speed b a * -1)
   else (p, speed b a)).
Proof.
  destruct a; unfold Ball.update; simpl;
    repeat match goal with |- context [Qltb ?u ?v] => destruct (Qltb u v) end;
    reflexivity.
Qed.

Lemma update_radius (cv : Canvas) (e : Entity) : radius (update cv e) = radius e.
Proof.
  destruct e as [b | m]; unfold radius, update, MovingBall.update, Ball.update; simpl;
    repeat match goal with |- context [Qltb ?u ?v] => destruct (Qltb u v) end;
    reflexivity.
Qed.

Lemma clamp_axis (cv : Canvas) (b : Ball.t) (a : Axis) :
  coord (Ball.clampToBounds cv b) a =
  Qmax (Ball.radius b) (Qmin (coord b a) (dimension cv a - Ball.radius b)).
Proof. destruct a; reflexivity. Qed.

Lemma clamp_twice (r p c : Q) :
  Qmax r (Qmin (Qmax r (Qmin p c)) c) = Qmax r (Qmin p c).
Proof.
  destruct (Qmin_cases p c) as [[-> Hm] | [-> Hm]];
  destruct (Qmax_cases r p) as [[E1 H1] | [E1 H1]];
  destruct (Qmax_cases r c) as [[E2 H2] | [E2 H2]];
  rewrite ?E1, ?E2;
  repeat match goal with
  | |- context [Qmin ?u ?v] =>
      destruct (Qmin_cases u v) as [[-> ?] | [-> ?]]
  | |- context [Qmax ?u ?v] =>
      destruct (Qmax_cases u v) as [[-> ?] | [-> ?]]
  end; try reflexivity; exfalso; lra.
Qed.

Lemma update_axis_within (cv : Canvas) (b : Ball.t) (a : Axis) :
  2 * Ball.radius b <= dimension cv a ->
  Ball.radius b <= coord (Ball.update cv b) a
  /\ coord (Ball.update cv b) a <= dimension cv a - Ball.radius b.
Proof.
  intros Hfit.
  pose proof (update_axis cv b a) as E. cbv zeta in E.
  destruct (Qltb_cases (dimension cv a) (coord b a + speed b a + Ball.radius b))
    as [[T Hfar] | [T Hfar]]; rewrite T in E.
  - injection E as -> _. split; lra.
  - destruct (Qltb_cases (coord b a + speed b a - Ball.radius b) 0)
      as [[T' Hnear] | [T' Hnear]]; rewrite T' in E; injection E as -> _;
      split; lra.
Qed.

Lemma body_update (cv : Canvas) (e : Entity) :
  exists b, Ball.radius b = radius e /\ body (update cv e) = Ball.update cv b.
Proof.
  destruct e as [b | m]; simpl.
  - exists b. split; reflexivity.
  - eexists. split; [| reflexivity]. reflexivity.
Qed.

(** ** Claims about one entity *)

(** C4 as stated fails: on a canvas 10 wide a ball of radius 10 is put at
    x = 10, its radius, and not at the midpoint 5. *)
Lemma clamp_midpoint_counterexample :
  let cv := mkCanvas 10 300 in
  let e := Simple (Ball.mk 3 5 (-3) (-3) 10 0) in
  clientWidth cv < 2 * radius e
  /\ fst (position (clampToBounds cv e)) == 10
  /\ ~ fst (position (clampToBounds cv e)) == clientWidth cv / 2.
Proof.
  cbv zeta. split; [reflexivity | split; [reflexivity |]].
  vm_compute. discriminate.
Qed.

(** C4, amended. When a dimension of the canvas is smaller than twice the
    radius of an entity, [clampToBounds] sets that coordinate to the
    radius: the lower limit of [Math.max] wins over the inverted upper
    limit.  The call is total. *)
Theorem clamp_inverted_bounds (cv : Canvas) (e : Entity) (a : Axis) :
  dimension cv a < 2 * radius e ->
  coord (body (clampToBounds cv e)) a = radius e.
Proof.
  intros Hinv.
  assert (E : coord (body (clampToBounds cv e)) a =
              Qmax (radius e) (Qmin (coord (body e) a) (dimension cv a - radius e))).
  { destruct e as [b | m]; simpl; apply clamp_axis. }
  rewrite E.
  destruct (Qmax_cases (radius e)
              (Qmin (coord (body e) a) (dimension cv a - radius e)))
    as [[_ H] | [-> _]]; [| reflexivity].
  exfalso.
  destruct (Qmin_cases (coord (body e) a) (dimension cv a - radius e))
    as [[Em Hm] | [Em Hm]]; rewrite Em in H; lra.
Qed.

Lemma clamp_inverted_bounds_witness :
  let cv := mkCanvas 10 300 in
  let e := Simple (Ball.mk 3 5 (-3) (-3) 10 0) in
  dimension cv Horizontal < 2 * radius e
  /\ coord (body (clampToBounds cv e)) Horizontal = radius e.
Proof.
  cbv zeta.
  assert (H : dimension (mkCanvas 10 300) Horizontal
              < 2 * radius (Simple (Ball.mk 3 5 (-3) (-3) 10 0)))
    by reflexivity.
  split; [exact H |].
  exact (clamp_inverted_bounds (mkCanvas 10 300)
           (Simple (Ball.mk 3 5 (-3) (-3) 10 0)) Horizontal H).
Defined.

(** C5. A ball at (5,5) with radius 10 and velocity (-3,-3) on a 400 by 300
    canvas is at (10,10) with velocity (3,3) after one [update]: both axes
    reflect in the same call.  On each axis the far bound is tested first
    and decides alone when it holds; the near bound is looked at only
    otherwise; so the speed of an axis is negated at most once per call. *)
Theorem update_reflects_both_axes :
  (let b := Ball.update canvas_400x300 (Ball.mk 5 5 (-3) (-3) 10 0) in
   (Ball.x b, Ball.y b) = (10, 10) /\ (Ball.speedX b, Ball.speedY b) = (3, 3))
  /\ forall (cv : Canvas) (b : Ball.t) (a : Axis),
       let p := coord b a + speed b a in
       let r := Ball.radius b in
       let d := dimension cv a in
       let b' := Ball.update cv b in
       (d < p + r -> coord b' a = d - r /\ speed b' a = speed b a * -1)
       /\ (p + r <= d -> p - r < 0 ->
           coord b' a = r /\ speed b' a = speed b a * -1)
       /\ (p + r <= d -> 0 <= p - r ->
           coord b' a = p /\ speed b' a = speed b a).
Proof.
  split; [split; reflexivity |].
  intros cv b a. cbv zeta.
  pose proof (update_axis cv b a) as E. cbv zeta in E.
  repeat split; intros;
    repeat match goal with
    | H : _ < _ |- _ => apply Qltb_true in H; rewrite H in E
    | H : _ <= _ |- _ => apply Qltb_false in H; rewrite H in E
    end; congruence.
Qed.

(** C8. [clampToBounds] is idempotent, on every canvas (also one smaller
    than the diameter of the entity): a second call changes nothing, so
    the position after two calls is the position after one; and a call
    leaves the velocity as it was. *)
Theorem clampToBounds_idempotent (cv : Canvas) (e : Entity) :
  clampToBounds cv (clampToBounds cv e) = clampToBounds cv e
  /\ position (clampToBounds cv (clampToBounds cv e))
     = position (clampToBounds cv e)
  /\ velocity (clampToBounds cv e) = velocity e.
Proof.
  assert (E : clampToBounds cv (clampToBounds cv e) = clampToBounds cv e).
  { destruct e as [b | m]; simpl;
      unfold MovingBall.clampToBounds, Ball.clampToBounds; simpl;
      rewrite !clamp_twice; reflexivity. }
  split; [exact E | split].
  - now rewrite E.
  - destruct e; reflexivity.
Qed.

(** ** The random source is only read *)

Lemma Ball_new_draws (cv : Canvas) (x0 y0 : option Q) (s : Rng) :
  draws (snd (Ball.new cv x0 y0 s)) = draws s.
Proof. destruct x0, y0; reflexivity. Qed.

Lemma MovingBall_new_draws (cv : Canvas) (x0 y0 : option Q) (s : Rng) :
  draws (snd (MovingBall.new cv x0 y0 s)) = draws s.
Proof. destruct x0, y0; reflexivity. Qed.

Lemma MovingBall_new_small (cv : Canvas) (x0 y0 : option Q) (s : Rng) :
  unit_draws (draws s) ->
  small (MovingBall.ax (fst (MovingBall.new cv x0 y0 s)))
  /\ small (MovingBall.ay (fst (MovingBall.new cv x0 y0 s))).
Proof.
  intros U.
  destruct x0, y0; cbn; unfold small; split; split;
    match goal with |- context [draws s ?n] => destruct (U n); lra end.
Qed.

Lemma clampToBounds_acceleration (cv : Canvas) (e : Entity) :
  acceleration (clampToBounds cv e) = acceleration e.
Proof. destruct e; reflexivity. Qed.

Lemma update_acceleration (cv : Canvas) (e : Entity) :
  acceleration (update cv e) = acceleration e.
Proof. destruct e; reflexivity. Qed.

(** ** What a spawn does *)

Lemma checkGameOver_fires (g : Game.t) :
  (100 <= length (Game.balls g))%nat ->
  Game.truthy (Game.isGameOver g) = false ->
  Game.checkGameOver g =
  (true, Game.set_gameOverBox_hidden
           (Game.disableButtons (Game.set_isGameOver g true)) false).
Proof.
  intros Hn Hp. unfold Game.checkGameOver.
  apply Nat.leb_le in Hn. rewrite Hn, Hp. reflexivity.
Qed.

Lemma checkGameOver_passes (g : Game.t) :
  (length (Game.balls g) < 100)%nat
  \/ Game.truthy (Game.isGameOver g) = true ->
  Game.checkGameOver g = (false, g).
Proof.
  intros H. unfold Game.checkGameOver.
  destruct H as [H | H].
  - apply Nat.leb_gt in H. rewrite H. reflexivity.
  - rewrite H, andb_false_r. reflexivity.
Qed.

Lemma checkGameOver_cases (g : Game.t) :
  ((100 <= length (Game.balls g))%nat
   /\ Game.truthy (Game.isGameOver g) = false)
  \/ ((length (Game.balls g) < 100)%nat
      \/ Game.truthy (Game.isGameOver g) = true).
Proof.
  destruct (Game.truthy (Game.isGameOver g)); [right; right; reflexivity |].
  destruct (Nat.le_gt_cases 100 (length (Game.balls g))); [left | right; left];
    auto.
Qed.

(** A spawn that finds the check firing returns at once. *)
Lemma spawn_rejected (k : Spawn) (g : Game.t) (s : Rng) :
  (100 <= length (Game.balls g))%nat ->
  Game.truthy (Game.isGameOver g) = false ->
  spawn k g s =
  (Game.set_gameOverBox_hidden
     (Game.disableButtons (Game.set_isGameOver g true)) false, s).
Proof.
  intros Hn Hp.
  destruct k; unfold spawn, Game.addRandomBall, Game.addBallOnClick,
    Game.addBallOnTouch; rewrite (checkGameOver_fires g Hn Hp); reflexivity.
Qed.

(** A spawn that passes the check appends one clamped entity. *)
Lemma spawn_admitted (k : Spawn) (g : Game.t) (s : Rng) :
  (length (Game.balls g) < 100)%nat
  \/ Game.truthy (Game.isGameOver g) = true ->
  exists (e : Entity) (s' : Rng),
    spawn k g s = (Game.updateBallCount (Game.push g e), s')
    /\ draws s' = draws s
    /\ (unit_draws (draws s) -> small_acceleration e).
Proof.
  intros H. apply checkGameOver_passes in H.
  destruct k as [| x y | x y];
    unfold spawn, Game.addRandomBall, Game.addBallOnClick, Game.addBallOnTouch;
    rewrite H; unfold bind, ret.
  - destruct (random s) as [r s1] eqn:Er.
    assert (D1 : draws s1 = draws s) by (injection Er as _ <-; reflexivity).
    destruct (Qltb r 0.5).
    + pose proof (Ball_new_draws (Game.canvas g) None None s1) as D2.
      destruct (Ball.new (Game.canvas g) None None s1) as [b s2].
      eexists _, _. split; [reflexivity |]. split.
      * simpl in D2. congruence.
      * intros _. exact I.
    + pose proof (MovingBall_new_draws (Game.canvas g) None None s1) as D2.
      pose proof (MovingBall_new_small (Game.canvas g) None None s1) as Sm.
      destruct (MovingBall.new (Game.canvas g) None None s1) as [m s2].
      eexists _, _. split; [reflexivity |]. split.
      * simpl in D2. congruence.
      * intros U. rewrite D1 in Sm. exact (Sm U).
  - destruct (random s) as [r s1] eqn:Er.
    assert (D1 : draws s1 = draws s) by (injection Er as _ <-; reflexivity).
    destruct (Qltb r 0.5).
    + pose proof (Ball_new_draws (Game.canvas g) (Some x) (Some y) s1) as D2.
      destruct (Ball.new (Game.canvas g) (Some x) (Some y) s1) as [b s2].
      eexists _, _. split; [reflexivity |]. split.
      * simpl in D2. congruence.
      * intros _. exact I.
    + pose proof (MovingBall_new_draws (Game.canvas g) (Some x) (Some y) s1) as D2.
      pose proof (MovingBall_new_small (Game.canvas g) (Some x) (Some y) s1) as Sm.
      destruct (MovingBall.new (Game.canvas g) (Some x) (Some y) s1) as [m s2].
      eexists _, _. split; [reflexivity |]. split.
      * simpl in D2. congruence.
      * intros U. rewrite D1 in Sm. exact (Sm U).
  - pose proof (MovingBall_new_draws (Game.canvas g) (Some x) (Some y) s) as D2.
    pose proof (MovingBall_new_small (Game.canvas g) (Some x) (Some y) s) as Sm.
    destruct (MovingBall.new (Game.canvas g) (Some x) (Some y) s) as [m s2].
    eexists _, _. split; [reflexivity |]. split.
    + exact D2.
    + intros U. exact (Sm U).
Qed.

(** ** Seeding *)

(** What [addRandomBalls n] leaves of a game that has room for [n] more
    balls: everything but the balls and the counter, with [n] balls
    appended. *)
Lemma addRandomBalls_room (n : nat) :
  forall (g : Game.t) (s : Rng),
    (length (Game.balls g) + n <= 100)%nat ->
    exists (bs : list Entity) (c : nat) (s' : Rng),
      Game.addRandomBalls n g s =
      (Game.mk (Game.canvas g) (Game.ctx g) (Game.balls g ++ bs)
               (Game.isGameOver g)
               (mkDom (addBtn_disabled (Game.dom g))
                      (clearBtn_disabled (Game.dom g))
                      (gameOverBox_hidden (Game.dom g)) c), s')
      /\ length bs = n
      /\ draws s' = draws s
      /\ (unit_draws (draws s) -> Forall small_acceleration bs).
Proof.
  induction n as [| n IH]; intros g s Hroom.
  - exists [], (ballCount (Game.dom g)), s. rewrite app_nil_r.
    destruct g as [cv c bs f [a b h k]]. repeat split. constructor.
  - destruct (spawn_admitted SpawnRandom g s) as (e & s1 & E & D & Sm);
      [left; lia |].
    simpl in E. simpl. unfold bind. rewrite E.
    destruct (IH (Game.updateBallCount (Game.push g e)) s1) as
      (bs & c & s2 & E2 & L & D2 & Sm2).
    { simpl. rewrite length_app. simpl. lia. }
    exists (e :: bs), c, s2. rewrite E2. simpl. rewrite <- app_assoc. simpl.
    repeat split.
    + now rewrite L.
    + congruence.
    + intros U. constructor; [now apply Sm |]. apply Sm2. now rewrite D.
Qed.

Lemma restartGame_seeds (g : Game.t) (s : Rng) :
  exists (bs : list Entity) (s' : Rng),
    Game.restartGame g s =
    (Game.mk (Game.canvas g) (Game.ctx g) bs (Some false)
             (mkDom false false true 20), s')
    /\ length bs = 20%nat
    /\ draws s' = draws s
    /\ (unit_draws (draws s) -> Forall small_acceleration bs).
Proof.
  unfold Game.restartGame, bind, ret.
  match goal with |- context [Game.addRandomBalls 20 ?g0 s] =>
    destruct (addRandomBalls_room 20 g0 s) as (bs & c & s' & E & L & D & Sm);
      [simpl; lia | rewrite E]
  end.
  exists bs, s'. simpl. unfold Game.updateBallCount, Game.set_dom. simpl.
  rewrite L. auto.
Qed.

(** ** The frame *)

Lemma draw_appends (e : Entity) (c : Ctx) : draw e c = c ++ [arc_of e].
Proof. destruct e; reflexivity. Qed.

Lemma loop_from_spec (f : option bool) (cv : Canvas) (bs : list Entity) :
  forall c : Ctx,
    let bs' := if Game.truthy f then bs else map (update cv) bs in
    Game.loop_from f cv bs c = (bs', c ++ map arc_of bs').
Proof.
  induction bs as [| b bs IH]; intros c; cbv zeta.
  - destruct (Game.truthy f); simpl; rewrite app_nil_r; reflexivity.
  - simpl. rewrite IH, draw_appends, <- app_assoc.
    destruct (Game.truthy f); reflexivity.
Qed.

Lemma loop_spec (g : Game.t) :
  let bs' := if Game.truthy (Game.isGameOver g) then Game.balls g
             else map (update (Game.canvas g)) (Game.balls g) in
  Game.loop g =
  Game.mk (Game.canvas g) (map arc_of bs') bs' (Game.isGameOver g) (Game.dom g).
Proof.
  cbv zeta. unfold Game.loop, Game.clear. simpl.
  rewrite loop_from_spec. reflexivity.
Qed.

(** ** Invariants of the sessions *)

Lemma phase_Playing (g : Game.t) :
  Game.phase g = Playing <-> Game.truthy (Game.isGameOver g) = false.
Proof.
  unfold Game.phase. destruct (Game.truthy (Game.isGameOver g));
    split; intros H; congruence.
Qed.

Lemma phase_Over (g : Game.t) :
  Game.phase g = Over <-> Game.truthy (Game.isGameOver g) = true.
Proof.
  unfold Game.phase. destruct (Game.truthy (Game.isGameOver g));
    split; intros H; congruence.
Qed.

Lemma coherent_flags (g : Game.t) :
  coherent g <->
  addBtn_disabled (Game.dom g) = Game.truthy (Game.isGameOver g)
  /\ (Game.truthy (Game.isGameOver g) = false ->
      (length (Game.balls g) <= 100)%nat)
  /\ (Game.truthy (Game.isGameOver g) = true ->
      clearBtn_disabled (Game.dom g) = true
      /\ (100 <= length (Game.balls g))%nat).
Proof.
  unfold coherent. rewrite phase_Playing, phase_Over. reflexivity.
Qed.

Lemma small_map (f : Entity -> Entity) (bs : list Entity) :
  (forall e, acceleration (f e) = acceleration e) ->
  Forall small_acceleration bs -> Forall small_acceleration (map f bs).
Proof.
  intros Hf H. induction H as [| e bs He _ IH]; simpl; constructor; auto.
  unfold small_acceleration in *. now rewrite Hf.
Qed.

Lemma spawn_keeps (k : Spawn) (g : Game.t) (s : Rng) :
  draws (snd (spawn k g s)) = draws s
  /\ (coherent g -> coherent (fst (spawn k g s)))
  /\ (unit_draws (draws s) ->
      Forall small_acceleration (Game.balls g) ->
      Forall small_acceleration (Game.balls (fst (spawn k g s)))).
Proof.
  destruct (checkGameOver_cases g) as [[Hn Hp] | Hpass].
  - rewrite (spawn_rejected k g s Hn Hp). simpl.
    split; [reflexivity | split; [| auto]].
    intros _. apply coherent_flags. simpl. repeat split; auto; discriminate.
  - destruct (spawn_admitted k g s Hpass) as (e & s' & -> & D & Sm). simpl.
    split; [exact D | split].
    + rewrite !coherent_flags. simpl. rewrite length_app. simpl.
      intros (Ha & Hplay & Hover). split; [exact Ha | split].
      * intros Hf. destruct Hpass as [Hlt | Ht]; [lia | congruence].
      * intros Ht. destruct (Hover Ht). split; [assumption | lia].
    + intros U Hall. apply Forall_app. split; [exact Hall |].
      constructor; [now apply Sm | constructor].
Qed.

Lemma dispatch_keeps (e : Event) (g : Game.t) (s : Rng) :
  draws (snd (dispatch e g s)) = draws s
  /\ (coherent g -> coherent (fst (dispatch e g s)))
  /\ (unit_draws (draws s) ->
      Forall small_acceleration (Game.balls g) ->
      Forall small_acceleration (Game.balls (fst (dispatch e g s)))).
Proof.
  destruct e as [| | | x y | x y | w h | |]; simpl.
  - destruct (addBtn_disabled (Game.dom g)); [simpl; auto |].
    apply (spawn_keeps SpawnRandom).
  - destruct (clearBtn_disabled (Game.dom g)) eqn:Ec; [simpl; auto |].
    unfold Game.clearBalls. rewrite Ec. simpl.
    split; [reflexivity | split; [| intros; constructor]].
    rewrite !coherent_flags. simpl. intros (Ha & _ & Hover).
    split; [exact Ha | split; [intros; lia |]].
    intros Ht. destruct (Hover Ht). congruence.
  - destruct (restartGame_seeds g s) as (bs & s' & -> & L & D & Sm). simpl.
    split; [exact D | split; [| auto]].
    intros _. apply coherent_flags. simpl. rewrite L.
    repeat split; try discriminate. lia.
  - apply (spawn_keeps (SpawnClick x y)).
  - apply (spawn_keeps (SpawnTouch x y)).
  - auto.
  - split; [reflexivity | split].
    + rewrite !coherent_flags. simpl. now rewrite length_map.
    + intros _. apply small_map. apply clampToBounds_acceleration.
  - rewrite loop_spec. simpl. split; [reflexivity | split].
    + rewrite !coherent_flags. simpl.
      destruct (Game.truthy (Game.isGameOver g)); [auto |].
      now rewrite length_map.
    + intros _.
      destruct (Game.truthy (Game.isGameOver g)); [auto |].
      apply small_map. apply update_acceleration.
Qed.

Lemma run_keeps (es : list Event) :
  forall (g : Game.t) (s : Rng),
    draws (snd (run es g s)) = draws s
    /\ (coherent g -> coherent (fst (run es g s)))
    /\ (unit_draws (draws s) ->
        Forall small_acceleration (Game.balls g) ->
        Forall small_acceleration (Game.balls (fst (run es g s)))).
Proof.
  induction es as [| e es IH]; intros g s; simpl.
  - auto.
  - unfold bind.
    destruct (dispatch_keeps e g s) as (D & G & Sm).
    destruct (dispatch e g s) as [g1 s1]. simpl in *.
    destruct (IH g1 s1) as (D' & G' & Sm').
    split; [congruence | split; [auto |]].
    intros U Hall. apply Sm'; [now rewrite D | auto].
Qed.

Lemma new_keeps (cv : Canvas) (d : Dom) (s : Rng) :
  draws (snd (Game.new cv d s)) = draws s
  /\ (addBtn_disabled d = false -> coherent (fst (Game.new cv d s)))
  /\ (unit_draws (draws s) ->
      Forall small_acceleration (Game.balls (fst (Game.new cv d s))))
  /\ length (Game.balls (fst (Game.new cv d s))) = 20%nat
  /\ Game.phase (fst (Game.new cv d s)) = Playing.
Proof.
  unfold Game.new, bind, ret.
  destruct (addRandomBalls_room 20 (Game.mk cv [] [] None d) s)
    as (bs & c & s' & -> & L & D & Sm); [simpl; lia |].
  rewrite loop_spec. simpl.
  split; [exact D | split; [| split; [| split]]].
  - intros Hd. apply coherent_flags. simpl. rewrite length_map, L.
    repeat split; try discriminate; auto. lia.
  - intros U. apply small_map; [apply update_acceleration | auto].
  - now rewrite length_map.
  - reflexivity.
Qed.

Lemma session_keeps (cv : Canvas) (d : Dom) (s : Rng) (es : list Event) :
  draws (snd (session cv d s es)) = draws s
  /\ (addBtn_disabled d = false -> coherent (fst (session cv d s es)))
  /\ (unit_draws (draws s) ->
      Forall small_acceleration (Game.balls (fst (session cv d s es)))).
Proof.
  unfold session, bind.
  destruct (new_keeps cv d s) as (D & G & Sm & _).
  destruct (Game.new cv d s) as [g0 s0]. simpl in *.
  destruct (run_keeps es g0 s0) as (D' & G' & Sm').
  split; [congruence | split; [auto |]].
  intros U. apply Sm'; [now rewrite D | auto].
Qed.

Lemma dispatch_spawn (e : Event) (g : Game.t) (s : Rng) :
  is_spawn e = true -> coherent g -> Game.phase g = Playing ->
  exists k : Spawn, dispatch e g s = spawn k g s.
Proof.
  intros He (Ha & _) Hp. apply phase_Playing in Hp. rewrite Hp in Ha.
  destruct e as [| | | x y | x y | w h | |]; try discriminate; simpl.
  - exists SpawnRandom. now rewrite Ha.
  - now exists (SpawnClick x y).
  - now exists (SpawnTouch x y).
Qed.

Lemma spawn_below_threshold (k : Spawn) (g : Game.t) (s : Rng) :
  (length (Game.balls g) < 100)%nat ->
  length (Game.balls (fst (spawn k g s))) = S (length (Game.balls g))
  /\ Game.phase (fst (spawn k g s)) = Game.phase g.
Proof.
  intros Hlt.
  destruct (spawn_admitted k g s (or_introl Hlt)) as (e & s' & -> & _).
  simpl. rewrite length_app. simpl. split; [lia | reflexivity].
Qed.

Lemma spawn_at_threshold (k : Spawn) (g : Game.t) (s : Rng) :
  (100 <= length (Game.balls g))%nat -> Game.phase g = Playing ->
  Game.balls (fst (spawn k g s)) = Game.balls g
  /\ Game.phase (fst (spawn k g s)) = Over.
Proof.
  intros Hn Hp. apply phase_Playing in Hp.
  rewrite (spawn_rejected k g s Hn Hp). split; reflexivity.
Qed.

(** Once [isGameOver] is set the check no longer fires, and a spawn method
    that is called appends a ball. *)
Lemma spawn_when_Over (k : Spawn) (g : Game.t) (s : Rng) :
  Game.phase g = Over ->
  length (Game.balls (fst (spawn k g s))) = S (length (Game.balls g))
  /\ Game.phase (fst (spawn k g s)) = Over.
Proof.
  intros P. pose proof P as T. apply phase_Over in T.
  destruct (spawn_admitted k g s (or_intror T)) as (e & s' & -> & _).
  simpl. rewrite length_app. simpl. split; [lia | exact P].
Qed.

(** ** Claims about the session *)

(** C1 as stated fails twice.  After the page load and 80 clicks on the
    add button the session holds 100 balls and is still [Playing]: the
    phase changes at the next spawn attempt, not when the count reaches
    100.  And once the session is [Over] with 100 balls, a click on the
    canvas adds a ball: [checkGameOver] answers [true] only on the call
    that sets [isGameOver]. *)
Lemma spawn_admission_counterexample :
  (let w := session canvas_400x300 page_dom half_draws (repeat ClickAddBtn 80) in
   count w = 100%nat /\ Game.phase (fst w) = Playing)
  /\ (let w := session canvas_400x300 page_dom half_draws (repeat ClickAddBtn 81) in
      count w = 100%nat /\ Game.phase (fst w) = Over
      /\ count (dispatch (ClickCanvas 5 5) (fst w) (snd w)) = 101%nat).
Proof. vm_compute. repeat split. Qed.

(** C1, amended.  In every session on a page whose add button starts
    enabled: while the phase is [Playing] there are at most 100 balls; a
    spawn attempt (button, click or touch) made while [Playing] with fewer
    than 100 balls adds exactly one and leaves the phase [Playing]; a
    spawn attempt made while [Playing] with 100 balls adds none and puts
    the session in phase [Over]; and in phase [Over] a click on the add
    button reaches no handler, so it changes nothing. *)
Theorem spawn_admission (cv : Canvas) (d : Dom) (s : Rng) (es : list Event) :
  addBtn_disabled d = false ->
  let w := session cv d s es in
  let g := fst w in
  (Game.phase g = Playing -> (length (Game.balls g) <= 100)%nat)
  /\ (forall e : Event, is_spawn e = true -> Game.phase g = Playing ->
      let g' := fst (dispatch e g (snd w)) in
      ((length (Game.balls g) < 100)%nat ->
       length (Game.balls g') = S (length (Game.balls g))
       /\ Game.phase g' = Playing)
      /\ (length (Game.balls g) = 100%nat ->
          Game.balls g' = Game.balls g /\ Game.phase g' = Over))
  /\ (Game.phase g = Over ->
      dispatch ClickAddBtn g (snd w) = (g, snd w)).
Proof.
  intros Hd. cbv zeta.
  destruct (session_keeps cv d s es) as (_ & G & _). specialize (G Hd).
  set (g := fst (session cv d s es)) in *.
  set (s1 := snd (session cv d s es)).
  split; [| split].
  - apply G.
  - intros e He Hp.
    destruct (dispatch_spawn e g s1 He G Hp) as [k ->]. split.
    + intros Hlt. destruct (spawn_below_threshold k g s1 Hlt) as [L P].
      split; [exact L | congruence].
    + intros Heq. apply spawn_at_threshold; [lia | exact Hp].
  - intros Ho. apply phase_Over in Ho. destruct G as (Ha & _).
    simpl. rewrite Ha, Ho. reflexivity.
Qed.

Lemma spawn_admission_witness :
  let w := session canvas_400x300 page_dom half_draws (repeat ClickAddBtn 80) in
  addBtn_disabled page_dom = false
  /\ (Game.phase (fst w) = Playing ->
      (length (Game.balls (fst w)) <= 100)%nat).
Proof.
  cbv zeta. split; [reflexivity |].
  exact (proj1 (spawn_admission canvas_400x300 page_dom half_draws
                  (repeat ClickAddBtn 80) eq_refl)).
Defined.

(** C2 as stated fails: from 99 balls in phase [Playing], the spawn that
    brings the count to 100 leaves the phase [Playing]. *)
Lemma threshold_counterexample :
  let w := session canvas_400x300 page_dom half_draws (repeat ClickAddBtn 79) in
  let w' := Game.addRandomBall (fst w) (snd w) in
  count w = 99%nat /\ Game.phase (fst w) = Playing
  /\ count w' = 100%nat /\ Game.phase (fst w') <> Over.
Proof. vm_compute. repeat split. discriminate. Qed.

(** C2, amended.  The check runs at the start of every spawn attempt,
    before the new entity is created, and fires when it finds 100 balls:
    from 99 balls in phase [Playing] one more spawn leaves 100 balls with
    the phase still [Playing]; the spawn attempt after that adds nothing,
    leaves the count at 100 and puts the session in phase [Over]. *)
Theorem threshold_fires_on_next_attempt
        (g : Game.t) (s : Rng) (k1 k2 : Spawn) :
  length (Game.balls g) = 99%nat ->
  Game.phase g = Playing ->
  let w1 := spawn k1 g s in
  let w2 := spawn k2 (fst w1) (snd w1) in
  (count w1 = 100%nat /\ Game.phase (fst w1) = Playing)
  /\ (count w2 = 100%nat /\ Game.phase (fst w2) = Over).
Proof.
  intros L P. cbv zeta. unfold count.
  destruct (spawn_below_threshold k1 g s) as [L1 P1]; [lia |].
  rewrite P in P1. rewrite L in L1.
  destruct (spawn_at_threshold k2 (fst (spawn k1 g s)) (snd (spawn k1 g s)))
    as [B2 P2]; [lia | exact P1 |].
  rewrite B2. auto.
Qed.

Lemma threshold_fires_on_next_attempt_witness :
  let w := session canvas_400x300 page_dom half_draws (repeat ClickAddBtn 79) in
  let w1 := spawn SpawnRandom (fst w) (snd w) in
  let w2 := spawn (SpawnClick 5 5) (fst w1) (snd w1) in
  (length (Game.balls (fst w)) = 99%nat /\ Game.phase (fst w) = Playing)
  /\ (count w1 = 100%nat /\ Game.phase (fst w1) = Playing)
  /\ (count w2 = 100%nat /\ Game.phase (fst w2) = Over).
Proof.
  cbv zeta.
  assert (L : length (Game.balls (fst (session canvas_400x300 page_dom half_draws
                                         (repeat ClickAddBtn 79)))) = 99%nat)
    by (vm_compute; reflexivity).
  assert (P : Game.phase (fst (session canvas_400x300 page_dom half_draws
                                 (repeat ClickAddBtn 79))) = Playing)
    by (vm_compute; reflexivity).
  split; [split; [exact L | exact P] |].
  exact (threshold_fires_on_next_attempt _ _ SpawnRandom (SpawnClick 5 5) L P).
Defined.

Lemma restartGame_forgets (g : Game.t) (bs : list Entity) (s : Rng) :
  Game.restartGame (Game.set_balls g bs) s = Game.restartGame g s.
Proof. reflexivity. Qed.

Lemma restartGame_result (g : Game.t) (s : Rng) :
  let g' := fst (Game.restartGame g s) in
  length (Game.balls g') = 20%nat
  /\ Game.phase g' = Playing
  /\ addBtn_disabled (Game.dom g') = false
  /\ clearBtn_disabled (Game.dom g') = false
  /\ gameOverBox_hidden (Game.dom g') = true.
Proof.
  cbv zeta. destruct (restartGame_seeds g s) as (bs & s' & -> & L & _).
  simpl. auto.
Qed.

(** C7. A frame in phase [Over] updates no entity: the balls, and so all
    positions and velocities, are after the frame what they were before.
    It still draws: the cleared context receives one arc per entity, in
    the order of [balls]. *)
Theorem frozen_frame (g : Game.t) :
  Game.phase g = Over ->
  let g' := Game.loop g in
  Game.balls g' = Game.balls g
  /\ map position (Game.balls g') = map position (Game.balls g)
  /\ map velocity (Game.balls g') = map velocity (Game.balls g)
  /\ Game.ctx g' = map arc_of (Game.balls g)
  /\ Game.phase g' = Over.
Proof.
  intros P. cbv zeta. rewrite loop_spec. cbv zeta.
  pose proof P as T. apply phase_Over in T.
  unfold Game.phase in *. simpl. rewrite T. auto.
Qed.

Lemma frozen_frame_witness :
  let w := session canvas_400x300 page_dom half_draws (repeat ClickAddBtn 81) in
  Game.phase (fst w) = Over
  /\ Game.balls (Game.loop (fst w)) = Game.balls (fst w)
  /\ length (Game.ctx (Game.loop (fst w))) = 100%nat.
Proof.
  cbv zeta.
  assert (P : Game.phase (fst (session canvas_400x300 page_dom half_draws
                                 (repeat ClickAddBtn 81))) = Over)
    by (vm_compute; reflexivity).
  split; [exact P |].
  pose proof (frozen_frame _ P) as R. cbv zeta in R.
  split; [apply R |].
  destruct R as (_ & _ & _ & -> & _). vm_compute. reflexivity.
Defined.

(** C9. With a random source that yields values in [0, 1), both
    acceleration components of a [MovingBall] lie in [-0.01, 0.01) when it
    is constructed; [update] and [clampToBounds] leave them as they are;
    and so every entity of every session has them in that range. *)
Theorem acceleration_small_and_constant (s : Rng) :
  unit_draws (draws s) ->
  (forall (cv : Canvas) (x0 y0 : option Q),
      let m := fst (MovingBall.new cv x0 y0 s) in
      (- 0.01 <= MovingBall.ax m /\ MovingBall.ax m < 0.01)
      /\ (- 0.01 <= MovingBall.ay m /\ MovingBall.ay m < 0.01))
  /\ (forall (cv : Canvas) (m : MovingBall.t),
         (MovingBall.ax (MovingBall.update cv m) = MovingBall.ax m
          /\ MovingBall.ay (MovingBall.update cv m) = MovingBall.ay m)
         /\ (MovingBall.ax (MovingBall.clampToBounds cv m) = MovingBall.ax m
             /\ MovingBall.ay (MovingBall.clampToBounds cv m) = MovingBall.ay m))
  /\ (forall (cv : Canvas) (d : Dom) (es : list Event),
         Forall small_acceleration (Game.balls (fst (session cv d s es)))).
Proof.
  intros U. split; [| split].
  - intros cv x0 y0. exact (MovingBall_new_small cv x0 y0 s U).
  - intros cv m. repeat split.
  - intros cv d es. now apply session_keeps.
Qed.

Lemma half_draws_unit : unit_draws (draws half_draws).
Proof. intros n. split; [discriminate | reflexivity]. Defined.

Lemma acceleration_small_and_constant_witness :
  unit_draws (draws half_draws)
  /\ (let m := fst (MovingBall.new canvas_400x300 None None half_draws) in
      - 0.01 <= MovingBall.ax m /\ MovingBall.ax m < 0.01).
Proof.
  split; [exact half_draws_unit |].
  exact (proj1 (proj1 (acceleration_small_and_constant half_draws
                         half_draws_unit) canvas_400x300 None None)).
Defined.

(** * Further properties *)

(** ** The constructors *)

Ltac unit_facts U n k :=
  lazymatch k with
  | O => idtac
  | S ?k' => pose proof (U n); unit_facts U (S n) k'
  end.

Lemma fast_sign (m t : Q) :
  0 <= m -> m < 1 -> fast ((m * 2 + 1) * (if Qltb t 0.5 then -1 else 1)).
Proof.
  intros H0 H1. unfold fast. destruct (Qltb t 0.5).
  - setoid_replace ((m * 2 + 1) * -1) with (- (m * 2 + 1)) by ring.
    rewrite Qabs_opp, Qabs_pos; lra.
  - setoid_replace ((m * 2 + 1) * 1) with (m * 2 + 1) by ring.
    rewrite Qabs_pos; lra.
Qed.

Lemma fast_flip (v : Q) : fast v -> fast (v * -1).
Proof.
  unfold fast. setoid_replace (v * -1) with (- v) by ring.
  now rewrite Qabs_opp.
Qed.

Lemma inside_draw (r d rad : Q) :
  0 <= r -> r < 1 -> 2 * rad <= d ->
  rad <= r * (d - rad * 2) + rad /\ r * (d - rad * 2) + rad <= d - rad.
Proof. intros. split; nra. Qed.

Lemma Ball_new_born (cv : Canvas) (x0 y0 : option Q) (s : Rng) :
  unit_draws (draws s) ->
  let b := fst (Ball.new cv x0 y0 s) in
  (10 <= Ball.radius b /\ Ball.radius b <= 25)
  /\ (forall a : Axis, fast (speed b a))
  /\ (0 <= Ball.hue b /\ Ball.hue b < 360)
  /\ match x0 with
     | Some v => Ball.x b = v
     | None => 2 * Ball.radius b <= clientWidth cv ->
               Ball.radius b <= Ball.x b
               /\ Ball.x b <= clientWidth cv - Ball.radius b
     end
  /\ match y0 with
     | Some v => Ball.y b = v
     | None => 2 * Ball.radius b <= clientHeight cv ->
               Ball.radius b <= Ball.y b
               /\ Ball.y b <= clientHeight cv - Ball.radius b
     end.
Proof.
  intros U. cbv zeta.
  unit_facts U (cursor s) 8%nat.
  destruct x0 as [vx |], y0 as [vy |]; unfold Ball.new, bind, random, ret;
    cbn [fst snd draws cursor Ball.x Ball.y Ball.radius Ball.speedX
         Ball.speedY Ball.hue speed];
    (split; [lra | split; [| split; [lra | split]]]);
    try reflexivity;
    try (intros a; destruct a; cbn [speed Ball.speedX Ball.speedY];
         apply fast_sign; lra);
    try (intros Hfit; apply inside_draw; lra).
Qed.

Lemma MovingBall_new_base (cv : Canvas) (x0 y0 : option Q) (s : Rng) :
  MovingBall.base (fst (MovingBall.new cv x0 y0 s)) = fst (Ball.new cv x0 y0 s).
Proof.
  unfold MovingBall.new, bind at 1.
  destruct (Ball.new cv x0 y0 s) as [b s1]. reflexivity.
Qed.

Lemma born_of_Ball (cv : Canvas) (k : Spawn) (b : Ball.t) (s : Rng) (moving : bool) :
  unit_draws (draws s) ->
  b = fst (Ball.new cv (fst (point k)) (snd (point k)) s) ->
  (forall x y, k = SpawnTouch x y -> moving = true) ->
  forall e : Entity,
    body e = b ->
    (moving = true -> acceleration e <> None) ->
    born cv k e.
Proof.
  intros U -> Htouch e Hb Hacc.
  destruct (Ball_new_born cv (fst (point k)) (snd (point k)) s U)
    as (Hr & Hs & Hh & Hx & Hy).
  unfold born, radius_in_range, radius, position. rewrite Hb.
  split; [exact Hr | split; [exact Hs | split; [exact Hh |]]].
  destruct k as [| x y | x y]; cbn [point fst snd] in *.
  - intros Hfit a. specialize (Hfit a). unfold radius in *.
    rewrite Hb in *. destruct a; [apply Hx, Hfit | apply Hy, Hfit].
  - now rewrite Hx, Hy.
  - rewrite Hx, Hy. split; [reflexivity |]. apply Hacc. now apply (Htouch x y).
Qed.

(** A spawn that passes the check appends the clamped new entity, made as
    [born] says. *)
Lemma spawn_creates (k : Spawn) (g : Game.t) (s : Rng) :
  (length (Game.balls g) < 100)%nat
  \/ Game.truthy (Game.isGameOver g) = true ->
  exists (e0 : Entity) (s' : Rng),
    spawn k g s =
    (Game.updateBallCount (Game.push g (clampToBounds (Game.canvas g) e0)), s')
    /\ draws s' = draws s
    /\ (unit_draws (draws s) -> born (Game.canvas g) k e0).
Proof.
  intros H. apply checkGameOver_passes in H.
  destruct k as [| x y | x y];
    unfold spawn, Game.addRandomBall, Game.addBallOnClick, Game.addBallOnTouch;
    rewrite H; unfold bind, ret.
  - destruct (random s) as [r s1] eqn:Er.
    assert (D1 : draws s1 = draws s) by (injection Er as _ <-; reflexivity).
    destruct (Qltb r 0.5).
    + pose proof (Ball_new_draws (Game.canvas g) None None s1) as D2.
      pose proof (fun U => born_of_Ball (Game.canvas g) SpawnRandom _ s1 false
                    U eq_refl) as B.
      cbn [point fst snd] in B.
      destruct (Ball.new (Game.canvas g) None None s1) as [b s2].
      eexists (Simple b), _. split; [reflexivity |]. split.
      * simpl in D2. congruence.
      * intros U. rewrite <- D1 in U.
        apply (B U); [discriminate | reflexivity | discriminate].
    + pose proof (MovingBall_new_draws (Game.canvas g) None None s1) as D2.
      pose proof (MovingBall_new_base (Game.canvas g) None None s1) as Eb.
      pose proof (fun U => born_of_Ball (Game.canvas g) SpawnRandom _ s1 true
                    U eq_refl) as B.
      cbn [point fst snd] in B.
      destruct (MovingBall.new (Game.canvas g) None None s1) as [m s2].
      eexists (Accelerating m), _. split; [reflexivity |]. split.
      * simpl in D2. congruence.
      * intros U. rewrite <- D1 in U.
        apply (B U); [reflexivity | exact Eb | discriminate].
  - destruct (random s) as [r s1] eqn:Er.
    assert (D1 : draws s1 = draws s) by (injection Er as _ <-; reflexivity).
    destruct (Qltb r 0.5).
    + pose proof (Ball_new_draws (Game.canvas g) (Some x) (Some y) s1) as D2.
      pose proof (fun U => born_of_Ball (Game.canvas g) (SpawnClick x y) _ s1
                    false U eq_refl) as B.
      cbn [point fst snd] in B.
      destruct (Ball.new (Game.canvas g) (Some x) (Some y) s1) as [b s2].
      eexists (Simple b), _. split; [reflexivity |]. split.
      * simpl in D2. congruence.
      * intros U. rewrite <- D1 in U.
        apply (B U); [discriminate | reflexivity | discriminate].
    + pose proof (MovingBall_new_draws (Game.canvas g) (Some x) (Some y) s1) as D2.
      pose proof (MovingBall_new_base (Game.canvas g) (Some x) (Some y) s1) as Eb.
      pose proof (fun U => born_of_Ball (Game.canvas g) (SpawnClick x y) _ s1
                    true U eq_refl) as B.
      cbn [point fst snd] in B.
      destruct (MovingBall.new (Game.canvas g) (Some x) (Some y) s1) as [m s2].
      eexists (Accelerating m), _. split; [reflexivity |]. split.
      * simpl in D2. congruence.
      * intros U. rewrite <- D1 in U.
        apply (B U); [reflexivity | exact Eb | discriminate].
  - pose proof (MovingBall_new_draws (Game.canvas g) (Some x) (Some y) s) as D2.
    pose proof (MovingBall_new_base (Game.canvas g) (Some x) (Some y) s) as Eb.
    pose proof (fun U => born_of_Ball (Game.canvas g) (SpawnTouch x y) _ s
                  true U eq_refl) as B.
    cbn [point fst snd] in B.
    destruct (MovingBall.new (Game.canvas g) (Some x) (Some y) s) as [m s2].
    eexists (Accelerating m), _. split; [reflexivity |]. split.
    + exact D2.
    + intros U. apply (B U); [reflexivity | exact Eb | discriminate].
Qed.

(** X1. With draws in [0, 1) the constructors give a radius from 10 to
    25, a speed of magnitude from 1 to 3 on each axis and a hue in
    [0, 360), whether or not a position is passed; a [MovingBall] gets
    them through [super]. *)
Theorem constructor_ranges
        (cv : Canvas) (x0 y0 : option Q) (s : Rng) :
  unit_draws (draws s) ->
  let b := fst (Ball.new cv x0 y0 s) in
  let m := fst (MovingBall.new cv x0 y0 s) in
  ((10 <= Ball.radius b /\ Ball.radius b <= 25)
   /\ (1 <= Qabs (Ball.speedX b) /\ Qabs (Ball.speedX b) <= 3)
   /\ (1 <= Qabs (Ball.speedY b) /\ Qabs (Ball.speedY b) <= 3)
   /\ (0 <= Ball.hue b /\ Ball.hue b < 360))
  /\ MovingBall.base m = b.
Proof.
  intros U. cbv zeta.
  destruct (Ball_new_born cv x0 y0 s U) as (Hr & Hs & Hh & _).
  split; [| apply MovingBall_new_base].
  split; [exact Hr | split; [apply (Hs Horizontal) | split]];
    [apply (Hs Vertical) | exact Hh].
Qed.

Lemma constructor_ranges_witness :
  unit_draws (draws half_draws)
  /\ (let b := fst (Ball.new canvas_400x300 None None half_draws) in
      10 <= Ball.radius b /\ Ball.radius b <= 25).
Proof.
  split; [exact half_draws_unit |].
  exact (proj1 (proj1 (constructor_ranges canvas_400x300 None None half_draws
                         half_draws_unit))).
Defined.

(** X2. A ball constructed without a position is placed with its whole
    disc on the canvas, on every axis on which the canvas is at least as
    wide as the disc (draws in [0, 1)). *)
Theorem random_placement_inside (cv : Canvas) (s : Rng) (a : Axis) :
  unit_draws (draws s) ->
  let b := fst (Ball.new cv None None s) in
  2 * Ball.radius b <= dimension cv a ->
  Ball.radius b <= coord b a /\ coord b a <= dimension cv a - Ball.radius b.
Proof.
  intros U. cbv zeta. intros Hfit.
  destruct (Ball_new_born cv None None s U) as (_ & _ & _ & Hx & Hy).
  destruct a; [apply Hx, Hfit | apply Hy, Hfit].
Qed.

Lemma random_placement_inside_witness :
  let b := fst (Ball.new canvas_400x300 None None half_draws) in
  (unit_draws (draws half_draws)
   /\ 2 * Ball.radius b <= dimension canvas_400x300 Horizontal)
  /\ (Ball.radius b <= coord b Horizontal
      /\ coord b Horizontal <= dimension canvas_400x300 Horizontal - Ball.radius b).
Proof.
  cbv zeta.
  assert (F : 2 * Ball.radius (fst (Ball.new canvas_400x300 None None half_draws))
              <= dimension canvas_400x300 Horizontal)
    by (vm_compute; discriminate).
  split; [split; [exact half_draws_unit | exact F] |].
  exact (random_placement_inside canvas_400x300 half_draws Horizontal
           half_draws_unit F).
Defined.

(** ** [update] and [clampToBounds] on one ball *)

(** X3. A bounce is elastic: on each axis [Ball.update] leaves the speed
    as it was or negates it, so its magnitude is unchanged; the radius and
    the colour are never touched. *)
Theorem bounce_is_elastic (cv : Canvas) (b : Ball.t) (a : Axis) :
  let b' := Ball.update cv b in
  (speed b' a = speed b a \/ speed b' a = speed b a * -1)
  /\ Qabs (speed b' a) == Qabs (speed b a)
  /\ Ball.radius b' = Ball.radius b
  /\ Ball.hue b' = Ball.hue b.
Proof.
  cbv zeta.
  assert (E : speed (Ball.update cv b) a = speed b a
              \/ speed (Ball.update cv b) a = speed b a * -1).
  { pose proof (update_axis cv b a) as E. cbv zeta in E.
    repeat match type of E with context [Qltb ?u ?v] =>
      destruct (Qltb u v) end; injection E as _ E; auto. }
  split; [exact E | split; [| split]].
  - destruct E as [-> | ->]; [reflexivity |].
    setoid_replace (speed b a * -1) with (- speed b a) by ring.
    apply Qabs_opp.
  - pose proof (update_radius cv (Simple b)) as R. exact R.
  - unfold Ball.update.
    repeat match goal with |- context [Qltb ?u ?v] => destruct (Qltb u v) end;
      reflexivity.
Qed.

(** X4. On an axis narrower than the diameter of the ball every [update]
    reflects: the speed is negated and the ball is put against one of the
    two bounds, wherever it was and however it moved. *)
Theorem cramped_axis_always_reflects (cv : Canvas) (b : Ball.t) (a : Axis) :
  dimension cv a < 2 * Ball.radius b ->
  let b' := Ball.update cv b in
  speed b' a = speed b a * -1
  /\ (coord b' a = dimension cv a - Ball.radius b \/ coord b' a = Ball.radius b).
Proof.
  intros Hnarrow. cbv zeta.
  pose proof (update_axis cv b a) as E. cbv zeta in E.
  destruct (Qltb_cases (dimension cv a) (coord b a + speed b a + Ball.radius b))
    as [[T Hfar] | [T Hfar]]; rewrite T in E.
  - injection E as -> ->. auto.
  - destruct (Qltb_cases (coord b a + speed b a - Ball.radius b) 0)
      as [[T' Hnear] | [T' Hnear]]; rewrite T' in E.
    + injection E as -> ->. auto.
    + exfalso. lra.
Qed.

Lemma cramped_axis_always_reflects_witness :
  let cv := mkCanvas 10 300 in
  let b := Ball.mk 3 5 1 1 10 0 in
  dimension cv Horizontal < 2 * Ball.radius b
  /\ speed (Ball.update cv b) Horizontal = speed b Horizontal * -1.
Proof.
  cbv zeta.
  assert (H : dimension (mkCanvas 10 300) Horizontal
              < 2 * Ball.radius (Ball.mk 3 5 1 1 10 0)) by reflexivity.
  split; [exact H |].
  exact (proj1 (cramped_axis_always_reflects (mkCanvas 10 300)
                  (Ball.mk 3 5 1 1 10 0) Horizontal H)).
Defined.

Lemma clamp_coord (cv : Canvas) (e : Entity) (a : Axis) :
  coord (body (clampToBounds cv e)) a =
  Qmax (radius e) (Qmin (coord (body e) a) (dimension cv a - radius e)).
Proof. destruct e as [b | m]; simpl; apply clamp_axis. Qed.

Lemma clamp_radius (cv : Canvas) (e : Entity) :
  radius (clampToBounds cv e) = radius e.
Proof. destruct e; reflexivity. Qed.

Lemma clamp_speed (cv : Canvas) (e : Entity) (a : Axis) :
  speed (body (clampToBounds cv e)) a = speed (body e) a.
Proof. destruct e, a; reflexivity. Qed.

Lemma clamp_into (r p d : Q) :
  2 * r <= d ->
  r <= Qmax r (Qmin p (d - r)) /\ Qmax r (Qmin p (d - r)) <= d - r.
Proof.
  intros H.
  destruct (Qmax_cases r (Qmin p (d - r))) as [[-> H1] | [-> H1]];
    destruct (Qmin_cases p (d - r)) as [[E H2] | [E H2]];
    rewrite ?E in *; split; lra.
Qed.

Lemma clamp_fix (r p c : Q) : r <= p -> p <= c -> Qmax r (Qmin p c) == p.
Proof.
  intros H1 H2.
  destruct (Qmin_cases p c) as [[-> _] | [-> H3]]; [| exfalso; lra].
  destruct (Qmax_cases r p) as [[-> _] | [-> H4]]; [reflexivity | lra].
Qed.

Lemma clamp_within (cv : Canvas) (e : Entity) :
  fits cv e -> within cv (clampToBounds cv e).
Proof.
  intros Hfit a. rewrite clamp_radius, clamp_coord.
  apply clamp_into, Hfit.
Qed.

(** X5. When the canvas is at least as large as the disc of an entity,
    [clampToBounds] puts the entity within the bounds on both axes, and an
    entity that is within the bounds already stays where it is. *)
Theorem clampToBounds_within (cv : Canvas) (e : Entity) :
  fits cv e ->
  within cv (clampToBounds cv e)
  /\ (within cv e ->
      forall a : Axis,
        coord (body (clampToBounds cv e)) a == coord (body e) a).
Proof.
  intros Hfit. split; [now apply clamp_within |].
  intros Hin a. rewrite clamp_coord. destruct (Hin a). now apply clamp_fix.
Qed.

Lemma clampToBounds_within_witness :
  let e := Simple (Ball.mk 395 (-7) 2 2 10 0) in
  fits canvas_400x300 e
  /\ within canvas_400x300 (clampToBounds canvas_400x300 e).
Proof.
  cbv zeta.
  assert (F : fits canvas_400x300 (Simple (Ball.mk 395 (-7) 2 2 10 0)))
    by (intros a; destruct a; vm_compute; discriminate).
  split; [exact F |].
  exact (proj1 (clampToBounds_within canvas_400x300 _ F)).
Defined.

(** ** Sessions: a way to prove invariants *)

Lemma spawn_outcome (k : Spawn) (g : Game.t) (s : Rng) :
  ((100 <= length (Game.balls g))%nat
   /\ Game.truthy (Game.isGameOver g) = false
   /\ spawn k g s =
      (Game.set_gameOverBox_hidden
         (Game.disableButtons (Game.set_isGameOver g true)) false, s))
  \/ (exists (e0 : Entity) (s' : Rng),
         spawn k g s =
         (Game.updateBallCount
            (Game.push g (clampToBounds (Game.canvas g) e0)), s')
         /\ (unit_draws (draws s) -> born (Game.canvas g) k e0)).
Proof.
  destruct (checkGameOver_cases g) as [[Hn Hp] | Hpass].
  - left. split; [exact Hn | split; [exact Hp |]]. now apply spawn_rejected.
  - right. destruct (spawn_creates k g s Hpass) as (e0 & s' & E & _ & B).
    now exists e0, s'.
Qed.

Section SessionInvariant.

Variable D : (nat -> Q) -> Prop.
Variable P : Game.t -> Prop.
Variable allowed : Event -> bool.

Hypothesis P_spawn :
  forall k g s, D (draws s) -> P g -> P (fst (spawn k g s)).
Hypothesis P_clear : forall g, P g -> P (Game.clearBalls g).
Hypothesis P_restart :
  forall g s, D (draws s) -> P g -> P (fst (Game.restartGame g s)).
Hypothesis P_canvas :
  forall g w h, allowed (CanvasResized w h) = true ->
                P g -> P (Game.set_canvas g (mkCanvas w h)).
Hypothesis P_resize : forall g, P g -> P (Game.onResize g).
Hypothesis P_loop : forall g, P g -> P (Game.loop g).

Lemma dispatch_invariant (e : Event) (g : Game.t) (s : Rng) :
  allowed e = true -> D (draws s) -> P g -> P (fst (dispatch e g s)).
Proof.
  intros Ha Hd Hp. destruct e as [| | | x y | x y | w h | |]; simpl.
  - destruct (addBtn_disabled (Game.dom g)); [exact Hp |].
    now apply (P_spawn SpawnRandom).
  - destruct (clearBtn_disabled (Game.dom g)); [exact Hp |].
    now apply P_clear.
  - now apply P_restart.
  - now apply (P_spawn (SpawnClick x y)).
  - now apply (P_spawn (SpawnTouch x y)).
  - now apply P_canvas.
  - now apply P_resize.
  - now apply P_loop.
Qed.

Lemma run_invariant (es : list Event) :
  forall (g : Game.t) (s : Rng),
    forallb allowed es = true -> D (draws s) -> P g -> P (fst (run es g s)).
Proof.
  induction es as [| e es IH]; intros g s Ha Hd Hp; simpl.
  - exact Hp.
  - simpl in Ha. apply andb_true_iff in Ha. destruct Ha as [Ha Ha'].
    unfold bind.
    pose proof (dispatch_invariant e g s Ha Hd Hp) as Hp1.
    destruct (dispatch_keeps e g s) as (Dr & _).
    destruct (dispatch e g s) as [g1 s1]. simpl in *.
    apply IH; [exact Ha' | now rewrite Dr | exact Hp1].
Qed.

Lemma session_invariant (cv : Canvas) (d : Dom) (s : Rng) (es : list Event) :
  forallb allowed es = true -> D (draws s) ->
  P (fst (Game.new cv d s)) ->
  P (fst (session cv d s es)).
Proof.
  intros Ha Hd Hp. unfold session, bind.
  destruct (new_keeps cv d s) as (Dr & _).
  destruct (Game.new cv d s) as [g0 s0]. simpl in *.
  apply run_invariant; [exact Ha | now rewrite Dr | exact Hp].
Qed.

End SessionInvariant.

Lemma forallb_all (es : list Event) : forallb (fun _ => true) es = true.
Proof. induction es; simpl; auto. Qed.

(** ** Seeding, with what the seeds are *)

Lemma addRandomBalls_spawns (n : nat) :
  forall (g : Game.t) (s : Rng),
    (length (Game.balls g) + n <= 100)%nat ->
    exists (bs : list Entity) (s' : Rng),
      Game.addRandomBalls n g s =
      (Game.mk (Game.canvas g) (Game.ctx g) (Game.balls g ++ bs)
               (Game.isGameOver g)
               (mkDom (addBtn_disabled (Game.dom g))
                      (clearBtn_disabled (Game.dom g))
                      (gameOverBox_hidden (Game.dom g))
                      (match n with
                       | O => ballCount (Game.dom g)
                       | S _ => length (Game.balls g) + n
                       end)), s')
      /\ length bs = n
      /\ (unit_draws (draws s) ->
          Forall (spawned (Game.canvas g) SpawnRandom) bs).
Proof.
  induction n as [| n IH]; intros g s Hroom.
  - exists [], s. rewrite app_nil_r.
    destruct g as [cv c bs f [a b h k]]. repeat split. constructor.
  - destruct (spawn_creates SpawnRandom g s) as (e0 & s1 & E & D & B);
      [left; lia |].
    simpl in E. simpl Game.addRandomBalls. unfold bind. rewrite E.
    destruct (IH (Game.updateBallCount
                    (Game.push g (clampToBounds (Game.canvas g) e0))) s1)
      as (bs & s2 & E2 & L & Sp).
    { simpl. rewrite length_app. simpl. lia. }
    exists (clampToBounds (Game.canvas g) e0 :: bs), s2.
    rewrite E2. simpl. rewrite <- app_assoc. simpl.
    split; [| split].
    + f_equal. f_equal. f_equal.
      destruct n; rewrite length_app; simpl; lia.
    + now rewrite L.
    + intros U. constructor.
      * exists e0. split; [reflexivity | now apply B].
      * apply Sp. now rewrite D.
Qed.

Lemma restartGame_spawns (g : Game.t) (s : Rng) :
  exists (bs : list Entity) (s' : Rng),
    Game.restartGame g s =
    (Game.mk (Game.canvas g) (Game.ctx g) bs (Some false)
             (mkDom false false true 20), s')
    /\ length bs = 20%nat
    /\ (unit_draws (draws s) ->
        Forall (spawned (Game.canvas g) SpawnRandom) bs).
Proof.
  unfold Game.restartGame, bind, ret.
  match goal with |- context [Game.addRandomBalls 20 ?g0 s] =>
    destruct (addRandomBalls_spawns 20 g0 s) as (bs & s' & E & L & Sp);
      [simpl; lia | rewrite E]
  end.
  exists bs, s'. simpl. unfold Game.updateBallCount, Game.set_dom. simpl.
  rewrite L. auto.
Qed.

Lemma new_spawns (cv : Canvas) (d : Dom) (s : Rng) :
  exists (bs : list Entity) (s' : Rng),
    Game.new cv d s =
    (Game.mk cv (map arc_of (map (update cv) bs)) (map (update cv) bs) None
             (mkDom (addBtn_disabled d) (clearBtn_disabled d)
                    (gameOverBox_hidden d) 20), s')
    /\ length bs = 20%nat
    /\ (unit_draws (draws s) -> Forall (spawned cv SpawnRandom) bs).
Proof.
  unfold Game.new, bind, ret.
  destruct (addRandomBalls_spawns 20 (Game.mk cv [] [] None d) s)
    as (bs & s' & -> & L & Sp); [simpl; lia |].
  exists bs, s'. rewrite loop_spec. simpl. auto.
Qed.

(** ** What a spawn appends *)

Lemma born_fits (cv : Canvas) (k : Spawn) (e0 : Entity) :
  born cv k e0 -> (forall a : Axis, 50 <= dimension cv a) -> fits cv e0.
Proof.
  intros ((_ & Hr) & _) Hcv a. specialize (Hcv a). lra.
Qed.

(** X7. A spawn that is admitted appends exactly one entity, after the
    balls there were.  With draws in [0, 1) and a canvas of at least 50 by
    50 the new entity has a radius from 10 to 25 and lies within the bounds;
    for a click or a touch it sits at the point of the event clamped into
    the bounds, and for a touch it is always a [MovingBall]. *)
Theorem spawn_lands_inside (k : Spawn) (g : Game.t) (s : Rng) :
  unit_draws (draws s) ->
  (length (Game.balls g) < 100)%nat ->
  (forall a : Axis, 50 <= dimension (Game.canvas g) a) ->
  exists e : Entity,
    Game.balls (fst (spawn k g s)) = Game.balls g ++ [e]
    /\ radius_in_range e
    /\ within (Game.canvas g) e
    /\ match k with
       | SpawnRandom => True
       | SpawnClick x y =>
           position e =
           (Qmax (radius e) (Qmin x (clientWidth (Game.canvas g) - radius e)),
            Qmax (radius e) (Qmin y (clientHeight (Game.canvas g) - radius e)))
       | SpawnTouch x y =>
           position e =
           (Qmax (radius e) (Qmin x (clientWidth (Game.canvas g) - radius e)),
            Qmax (radius e) (Qmin y (clientHeight (Game.canvas g) - radius e)))
           /\ acceleration e <> None
       end.
Proof.
  intros U Hlt Hcv.
  destruct (spawn_creates k g s (or_introl Hlt)) as (e0 & s' & -> & _ & B).
  specialize (B U).
  exists (clampToBounds (Game.canvas g) e0). simpl.
  split; [reflexivity | split; [| split]].
  - unfold radius_in_range. rewrite clamp_radius. apply B.
  - apply clamp_within. now apply (born_fits _ k).
  - assert (Hpos : forall x y, position e0 = (x, y) ->
               position (clampToBounds (Game.canvas g) e0) =
               (Qmax (radius (clampToBounds (Game.canvas g) e0))
                  (Qmin x (clientWidth (Game.canvas g)
                           - radius (clampToBounds (Game.canvas g) e0))),
                Qmax (radius (clampToBounds (Game.canvas g) e0))
                  (Qmin y (clientHeight (Game.canvas g)
                           - radius (clampToBounds (Game.canvas g) e0))))).
    { intros x y E. unfold position in *. injection E as Ex Ey.
      rewrite clamp_radius.
      rewrite (clamp_coord (Game.canvas g) e0 Horizontal : Ball.x _ = _).
      rewrite (clamp_coord (Game.canvas g) e0 Vertical : Ball.y _ = _).
      simpl. now rewrite Ex, Ey. }
    destruct B as (_ & _ & _ & Hk). destruct k as [| x y | x y].
    + exact I.
    + now apply Hpos.
    + destruct Hk as [E A]. split; [now apply Hpos |].
      now rewrite clampToBounds_acceleration.
Qed.

Lemma spawn_lands_inside_witness :
  let g := Game.mk canvas_400x300 [] [] None page_dom in
  (unit_draws (draws half_draws)
   /\ (length (Game.balls g) < 100)%nat
   /\ (forall a : Axis, 50 <= dimension (Game.canvas g) a))
  /\ exists e : Entity,
       Game.balls (fst (spawn (SpawnTouch 5 395) g half_draws))
       = Game.balls g ++ [e]
       /\ radius_in_range e.
Proof.
  cbv zeta.
  assert (L : (length (Game.balls (Game.mk canvas_400x300 [] [] None page_dom))
               < 100)%nat) by (simpl; lia).
  assert (C : forall a : Axis,
             50 <= dimension
                     (Game.canvas (Game.mk canvas_400x300 [] [] None page_dom)) a)
    by (intros a; destruct a; vm_compute; discriminate).
  split; [split; [exact half_draws_unit | split; [exact L | exact C]] |].
  destruct (spawn_lands_inside (SpawnTouch 5 395) _ _ half_draws_unit L C)
    as (e & E & R & _).
  exists e. split; [exact E | exact R].
Defined.

(** ** Invariants of every session *)

(** X8. In every session the counter [ballCount] shows the number of
    balls, whatever the page showed before the script ran. *)
Theorem counter_always_shows_count
        (cv : Canvas) (d : Dom) (s : Rng) (es : list Event) :
  let g := fst (session cv d s es) in
  ballCount (Game.dom g) = length (Game.balls g).
Proof.
  cbv zeta.
  apply (session_invariant (fun _ => True) counter_shows_count (fun _ => true));
    unfold counter_shows_count; auto using forallb_all.
  - intros k g s0 _ H.
    destruct (spawn_outcome k g s0) as [(_ & _ & ->) | (e0 & s' & -> & _)];
      [exact H | reflexivity].
  - intros g H. unfold Game.clearBalls.
    destruct (clearBtn_disabled (Game.dom g)); [exact H | reflexivity].
  - intros g s0 _ _.
    destruct (restartGame_seeds g s0) as (bs & s' & -> & L & _).
    simpl. now rewrite L.
  - intros g H. simpl. now rewrite length_map.
  - intros g H. rewrite loop_spec. simpl.
    destruct (Game.truthy (Game.isGameOver g)); [| rewrite length_map]; exact H.
  - destruct (new_spawns cv d s) as (bs & s' & -> & L & _).
    simpl. now rewrite length_map, L.
Qed.

(** X9. On a page that starts with both buttons enabled and the
    game-over box hidden, in every session the two buttons are disabled
    and the box is shown exactly when [isGameOver] is set. *)
Theorem controls_always_follow_phase
        (cv : Canvas) (d : Dom) (s : Rng) (es : list Event) :
  addBtn_disabled d = false ->
  clearBtn_disabled d = false ->
  gameOverBox_hidden d = true ->
  let g := fst (session cv d s es) in
  let over := match Game.phase g with Over => true | Playing => false end in
  addBtn_disabled (Game.dom g) = over
  /\ clearBtn_disabled (Game.dom g) = over
  /\ gameOverBox_hidden (Game.dom g) = negb over.
Proof.
  intros Ha Hc Hh. cbv zeta.
  assert (H : controls_follow_phase (fst (session cv d s es))).
  { apply (session_invariant (fun _ => True) controls_follow_phase
             (fun _ => true));
      unfold controls_follow_phase; auto using forallb_all.
    - intros k g s0 _ H.
      destruct (spawn_outcome k g s0) as [(_ & _ & ->) | (e0 & s' & -> & _)];
        [simpl; auto | exact H].
    - intros g H. unfold Game.clearBalls.
      case_eq (clearBtn_disabled (Game.dom g)); intros E; exact H.
    - intros g s0 _ _.
      destruct (restartGame_seeds g s0) as (bs & s' & -> & _).
      simpl. auto.
    - intros g H. rewrite loop_spec. exact H.
    - destruct (new_spawns cv d s) as (bs & s' & -> & _).
      simpl. auto. }
  unfold controls_follow_phase, Game.phase in *.
  destruct (Game.truthy (Game.isGameOver (fst (session cv d s es))));
    exact H.
Qed.

Lemma controls_always_follow_phase_witness :
  let g := fst (session canvas_400x300 page_dom half_draws
                  (repeat ClickAddBtn 81)) in
  (addBtn_disabled page_dom = false
   /\ clearBtn_disabled page_dom = false
   /\ gameOverBox_hidden page_dom = true)
  /\ addBtn_disabled (Game.dom g)
     = match Game.phase g with Over => true | Playing => false end.
Proof.
  cbv zeta. split; [repeat split |].
  exact (proj1 (controls_always_follow_phase canvas_400x300 page_dom half_draws
                  (repeat ClickAddBtn 81) eq_refl eq_refl eq_refl)).
Defined.

Lemma steady_clamp (cv : Canvas) (e : Entity) :
  steady e -> steady (clampToBounds cv e).
Proof.
  intros [Hr Hs]. unfold steady, radius_in_range.
  rewrite clamp_radius, clampToBounds_acceleration.
  split; [exact Hr |]. intros Hn a. rewrite clamp_speed. now apply Hs.
Qed.

Lemma steady_update (cv : Canvas) (e : Entity) :
  steady e -> steady (update cv e).
Proof.
  intros [Hr Hs]. unfold steady, radius_in_range.
  rewrite update_radius, update_acceleration.
  split; [exact Hr |]. intros Hn a. specialize (Hs Hn a).
  destruct e as [b | m]; [| discriminate]. simpl in *.
  pose proof (update_axis cv b a) as E. cbv zeta in E.
  repeat match type of E with context [Qltb ?u ?v] =>
    destruct (Qltb u v) end; injection E as _ ->;
    auto using fast_flip.
Qed.

Lemma spawned_steady (cv : Canvas) (k : Spawn) (e : Entity) :
  spawned cv k e -> steady e.
Proof.
  intros (e0 & -> & Hr & Hs & _). apply steady_clamp.
  split; [exact Hr | intros _; exact Hs].
Qed.

Lemma Forall_map_keeps {A : Type} (P : A -> Prop) (f : A -> A) (l : list A) :
  (forall x, P x -> P (f x)) -> Forall P l -> Forall P (map f l).
Proof.
  intros Hf H. induction H; simpl; constructor; auto.
Qed.

(** X10. In every session (draws in [0, 1)) every ball keeps the radius
    it was created with, from 10 to 25, and every plain [Ball] keeps
    speeds of magnitude from 1 to 3 on both axes: bounces only change
    their sign. *)
Theorem balls_stay_steady
        (cv : Canvas) (d : Dom) (s : Rng) (es : list Event) :
  unit_draws (draws s) ->
  Forall (fun e =>
            (10 <= radius e /\ radius e <= 25)
            /\ (acceleration e = None ->
                forall a : Axis,
                  1 <= Qabs (speed (body e) a) /\ Qabs (speed (body e) a) <= 3))
         (Game.balls (fst (session cv d s es))).
Proof.
  intros U.
  change (Forall steady (Game.balls (fst (session cv d s es)))).
  apply (session_invariant unit_draws
           (fun g => Forall steady (Game.balls g)) (fun _ => true));
    auto using forallb_all.
  - intros k g s0 U0 H.
    destruct (spawn_outcome k g s0) as [(_ & _ & ->) | (e0 & s' & -> & B)];
      [exact H |].
    simpl. apply Forall_app. split; [exact H |].
    constructor; [| constructor].
    apply (spawned_steady (Game.canvas g) k). exists e0. auto.
  - intros g H. unfold Game.clearBalls.
    destruct (clearBtn_disabled (Game.dom g)); [exact H | constructor].
  - intros g s0 U0 _.
    destruct (restartGame_spawns g s0) as (bs & s' & -> & _ & Sp). simpl.
    eapply Forall_impl; [| exact (Sp U0)].
    intros e. apply spawned_steady.
  - intros g H. simpl. apply Forall_map_keeps; [apply steady_clamp | exact H].
  - intros g H. rewrite loop_spec. simpl.
    destruct (Game.truthy (Game.isGameOver g)); [exact H |].
    apply Forall_map_keeps; [apply steady_update | exact H].
  - destruct (new_spawns cv d s) as (bs & s' & -> & _ & Sp). simpl.
    apply Forall_map_keeps; [apply steady_update |].
    eapply Forall_impl; [| exact (Sp U)].
    intros e. apply spawned_steady.
Qed.

Lemma balls_stay_steady_witness :
  unit_draws (draws half_draws)
  /\ Forall (fun e => 10 <= radius e /\ radius e <= 25)
            (Game.balls (fst (session canvas_400x300 page_dom half_draws
                                [ClickCanvas 5 5; AnimationFrame]))).
Proof.
  split; [exact half_draws_unit |].
  eapply Forall_impl;
    [| exact (balls_stay_steady canvas_400x300 page_dom half_draws
                [ClickCanvas 5 5; AnimationFrame] half_draws_unit)].
  intros e H. exact (proj1 H).
Defined.

(** ** The clear button *)

(** X12. In every session on a page whose add button starts enabled:
    once the phase is [Over], [clearBalls] returns without touching the
    game and a click on the clear button reaches no handler; whenever the
    clear button is enabled, [clearBalls] empties [balls], sets the
    counter to 0 and leaves the phase [Playing]. *)
Theorem clear_button (cv : Canvas) (d : Dom) (s : Rng) (es : list Event) :
  addBtn_disabled d = false ->
  let w := session cv d s es in
  let g := fst w in
  (Game.phase g = Over ->
   Game.clearBalls g = g /\ dispatch ClickClearBtn g (snd w) = (g, snd w))
  /\ (clearBtn_disabled (Game.dom g) = false ->
      let g' := Game.clearBalls g in
      Game.balls g' = []
      /\ ballCount (Game.dom g') = 0%nat
      /\ Game.phase g = Playing
      /\ Game.phase g' = Playing).
Proof.
  intros Hd. cbv zeta.
  destruct (session_keeps cv d s es) as (_ & G & _). specialize (G Hd).
  destruct G as (_ & _ & Hover).
  split.
  - intros Ho. destruct (Hover Ho) as [Hc _].
    simpl. unfold Game.clearBalls. rewrite Hc. split; reflexivity.
  - intros Hc. unfold Game.clearBalls. rewrite Hc. simpl.
    assert (Hp : Game.phase (fst (session cv d s es)) = Playing).
    { destruct (Game.phase (fst (session cv d s es))) eqn:E;
        [reflexivity |].
      destruct (Hover eq_refl) as [Hc' _]. congruence. }
    repeat split; try exact Hp.
Qed.

Lemma clear_button_witness :
  let w := session canvas_400x300 page_dom half_draws (repeat ClickAddBtn 81) in
  addBtn_disabled page_dom = false
  /\ (Game.phase (fst w) = Over -> Game.clearBalls (fst w) = fst w).
Proof.
  cbv zeta. split; [reflexivity |].
  intros Ho.
  exact (proj1 (proj1 (clear_button canvas_400x300 page_dom half_draws
                         (repeat ClickAddBtn 81) eq_refl) Ho)).
Defined.

(** ** The frame *)

(** X13. After a frame the context holds exactly one arc per ball, in the
    order of [balls] and at the positions the balls have after the frame,
    whatever was painted before; the frame keeps the number of balls, the
    canvas, [isGameOver] and the DOM, and in phase [Playing] it moves
    every ball by [update]. *)
Theorem frame_paints_current_balls (g : Game.t) :
  let g' := Game.loop g in
  Game.ctx g' = map arc_of (Game.balls g')
  /\ length (Game.balls g') = length (Game.balls g)
  /\ (Game.phase g = Playing ->
      Game.balls g' = map (update (Game.canvas g)) (Game.balls g))
  /\ Game.canvas g' = Game.canvas g
  /\ Game.isGameOver g' = Game.isGameOver g
  /\ Game.dom g' = Game.dom g.
Proof.
  cbv zeta. rewrite loop_spec. cbv zeta. simpl.
  split; [reflexivity | split; [| split; [| auto]]].
  - destruct (Game.truthy (Game.isGameOver g)); [| apply length_map];
      reflexivity.
  - intros Hp. apply phase_Playing in Hp. now rewrite Hp.
Qed.

(** ** The count is not bounded *)

Lemma run_app (es1 es2 : list Event) :
  forall (g : Game.t) (s : Rng),
    run (es1 ++ es2) g s =
    run es2 (fst (run es1 g s)) (snd (run es1 g s)).
Proof.
  induction es1 as [| e es1 IH]; intros g s; simpl.
  - reflexivity.
  - unfold bind. destruct (dispatch e g s) as [g1 s1]. apply IH.
Qed.

Lemma add_clicks_fill (n : nat) :
  forall (g : Game.t) (s : Rng),
    coherent g -> Game.phase g = Playing ->
    (length (Game.balls g) + n <= 100)%nat ->
    let w := run (repeat ClickAddBtn n) g s in
    count w = (length (Game.balls g) + n)%nat
    /\ Game.phase (fst w) = Playing
    /\ coherent (fst w).
Proof.
  induction n as [| n IH]; intros g s G P Hroom; cbv zeta.
  - simpl. unfold count. simpl. split; [lia | split; assumption].
  - change (repeat ClickAddBtn (S n)) with (ClickAddBtn :: repeat ClickAddBtn n).
    cbn [run]. unfold bind.
    assert (E : dispatch ClickAddBtn g s = spawn SpawnRandom g s).
    { destruct (dispatch_spawn ClickAddBtn g s eq_refl G P) as [k Ek].
      simpl. destruct G as (Ha & _). apply phase_Playing in P.
      rewrite Ha, P. reflexivity. }
    rewrite E.
    destruct (spawn_below_threshold SpawnRandom g s) as [L1 P1]; [lia |].
    destruct (spawn_keeps SpawnRandom g s) as (_ & G1 & _).
    destruct (spawn SpawnRandom g s) as [g1 s1]. simpl in *.
    destruct (IH g1 s1 (G1 G)) as (C & P2 & G2); [congruence | lia |].
    split; [| split; assumption]. rewrite C, L1. lia.
Qed.

Lemma canvas_clicks_grow (x y : Q) (n : nat) :
  forall (g : Game.t) (s : Rng),
    Game.phase g = Over ->
    let w := run (repeat (ClickCanvas x y) n) g s in
    count w = (length (Game.balls g) + n)%nat /\ Game.phase (fst w) = Over.
Proof.
  induction n as [| n IH]; intros g s P; cbv zeta.
  - simpl. unfold count. simpl. split; [lia | exact P].
  - simpl. unfold bind.
    destruct (spawn_when_Over (SpawnClick x y) g s P) as [L1 P1].
    simpl in L1, P1.
    destruct (Game.addBallOnClick x y g s) as [g1 s1]. simpl in *.
    destruct (IH g1 s1 P1) as (C & P2).
    split; [| exact P2]. rewrite C, L1. lia.
Qed.

(** X14. The number of balls is not bounded by 100.  On a page whose add
    button starts enabled, 81 clicks on the add button put the session in
    phase [Over] with 100 balls, and from then on every click on the
    canvas still adds a ball: after [n] more clicks there are [100 + n]
    balls and the phase is still [Over]. *)
Theorem over_session_keeps_growing
        (cv : Canvas) (d : Dom) (s : Rng) (x y : Q) (n : nat) :
  addBtn_disabled d = false ->
  let w := session cv d s
             (repeat ClickAddBtn 81 ++ repeat (ClickCanvas x y) n) in
  count w = (100 + n)%nat /\ Game.phase (fst w) = Over.
Proof.
  intros Hd. cbv zeta. unfold session, bind.
  destruct (new_keeps cv d s) as (_ & G & _ & L & P). specialize (G Hd).
  destruct (Game.new cv d s) as [g0 s0]. simpl in G, L, P.
  change (repeat ClickAddBtn 81) with (repeat ClickAddBtn 80 ++ [ClickAddBtn]).
  rewrite !run_app.
  destruct (add_clicks_fill 80 g0 s0 G P) as (C1 & P1 & G1); [lia |].
  unfold count in C1. rewrite L in C1.
  destruct (run (repeat ClickAddBtn 80) g0 s0) as [g1 s1].
  cbn [fst snd] in *.
  assert (E : dispatch ClickAddBtn g1 s1 = spawn SpawnRandom g1 s1).
  { simpl. destruct G1 as (Ha & _). pose proof P1 as T.
    apply phase_Playing in T. rewrite Ha, T. reflexivity. }
  cbn [run]. unfold bind, ret. rewrite E.
  destruct (spawn_at_threshold SpawnRandom g1 s1) as [B2 P2];
    [lia | exact P1 |].
  destruct (spawn SpawnRandom g1 s1) as [g2 s2]. simpl in *.
  destruct (canvas_clicks_grow x y n g2 s2 P2) as (C3 & P3).
  split; [| exact P3]. rewrite C3, B2, C1. reflexivity.
Qed.

Lemma over_session_keeps_growing_witness :
  addBtn_disabled page_dom = false
  /\ count (session canvas_400x300 page_dom half_draws
              (repeat ClickAddBtn 81 ++ repeat (ClickCanvas 5 5) 3))
     = 103%nat.
Proof.
  split; [reflexivity |].
  exact (proj1 (over_session_keeps_growing canvas_400x300 page_dom half_draws
                  5 5 3 eq_refl)).
Defined.

(** ** The page load *)

(** X15. The constructor of the game leaves 20 balls (none of the 20
    spawns is rejected), [isGameOver] unset and so the phase [Playing],
    the counter at 20 and one frame painted, on the canvas it was given;
    it does not touch the buttons or the game-over box. *)
Theorem page_load (cv : Canvas) (d : Dom) (s : Rng) :
  let g := fst (Game.new cv d s) in
  length (Game.balls g) = 20%nat
  /\ Game.isGameOver g = None
  /\ Game.phase g = Playing
  /\ ballCount (Game.dom g) = 20%nat
  /\ Game.ctx g = map arc_of (Game.balls g)
  /\ Game.canvas g = cv
  /\ addBtn_disabled (Game.dom g) = addBtn_disabled d
  /\ clearBtn_disabled (Game.dom g) = clearBtn_disabled d
  /\ gameOverBox_hidden (Game.dom g) = gameOverBox_hidden d.
Proof.
  cbv zeta. destruct (new_spawns cv d s) as (bs & s' & -> & L & _). simpl.
  rewrite length_map, L. repeat split.
Qed.

(** ** [resizeCanvas] *)

(** X16. [resizeCanvas] never scales the context by less than 1: the
    scale is the device pixel ratio when that is at least 1, and 1 when it
    is missing.  Each side of the backing store is the client size times
    the scale, rounded down, so it is never smaller than the client size
    rounded down. *)
Theorem backing_store_covers_canvas (devicePixelRatio : option Q) (cv : Canvas) :
  let b := resizeCanvas devicePixelRatio cv in
  (1 <= scale b
   /\ (forall q, devicePixelRatio = Some q -> 1 <= q -> scale b = q)
   /\ (devicePixelRatio = None -> scale b = 1))
  /\ (inject_Z (width b) <= clientWidth cv * scale b
      /\ clientWidth cv * scale b < inject_Z (width b) + 1)
  /\ (inject_Z (height b) <= clientHeight cv * scale b
      /\ clientHeight cv * scale b < inject_Z (height b) + 1)
  /\ (0 <= clientWidth cv -> (Qfloor (clientWidth cv) <= width b)%Z)
  /\ (0 <= clientHeight cv -> (Qfloor (clientHeight cv) <= height b)%Z).
Proof.
  cbv zeta. unfold resizeCanvas. cbn [scale width height].
  set (dpr := Qmax (or_1 devicePixelRatio) 1).
  assert (H1 : 1 <= dpr).
  { unfold dpr. destruct (Qmax_cases (or_1 devicePixelRatio) 1)
      as [[-> _] | [-> H]]; [apply Qle_refl | exact H]. }
  assert (Hfl : forall x, inject_Z (Qfloor x) <= x /\ x < inject_Z (Qfloor x) + 1).
  { intros x. split; [apply Qfloor_le |].
    pose proof (Qlt_floor x) as H. rewrite inject_Z_plus in H. exact H. }
  assert (Hge : forall x, 0 <= x -> (Qfloor x <= Qfloor (x * dpr))%Z).
  { intros x Hx. apply Qfloor_resp_le. nra. }
  split; [split; [exact H1 | split] | repeat split;
                                     try apply Hfl; try apply Hge; auto].
  - intros q -> Hq. unfold dpr. simpl.
    destruct (Qeq_bool q 0) eqn:E.
    + apply Qeq_bool_iff in E. exfalso. lra.
    + destruct (Qmax_cases q 1) as [[_ H] | [-> _]]; [lra | reflexivity].
  - intros ->. reflexivity.
Qed.

(** ** The resize handler *)

Lemma clamp_clamp (cv : Canvas) (e : Entity) :
  clampToBounds cv (clampToBounds cv e) = clampToBounds cv e.
Proof.
  destruct e as [b | m]; simpl;
    unfold MovingBall.clampToBounds, Ball.clampToBounds; simpl;
    rewrite !clamp_twice; reflexivity.
Qed.

(** X17. The resize handler clamps every ball against the canvas as it
    is now: afterwards each ball whose disc fits the canvas lies within
    the bounds.  It keeps the number and the order of the balls, their
    velocities and radii, the phase and the DOM, and running it twice is
    the same as running it once. *)
Theorem resize_handler_clamps (g : Game.t) :
  let g' := Game.onResize g in
  Forall (fun e => fits (Game.canvas g) e -> within (Game.canvas g) e)
         (Game.balls g')
  /\ length (Game.balls g') = length (Game.balls g)
  /\ map velocity (Game.balls g') = map velocity (Game.balls g)
  /\ map radius (Game.balls g') = map radius (Game.balls g)
  /\ Game.onResize g' = g'
  /\ Game.isGameOver g' = Game.isGameOver g
  /\ Game.dom g' = Game.dom g.
Proof.
  cbv zeta. unfold Game.onResize. simpl.
  split; [| split; [| split; [| split; [| split; [| auto]]]]].
  - induction (Game.balls g) as [| e bs IH]; simpl; constructor; [| exact IH].
    intros Hfit. apply clamp_within. intros a. specialize (Hfit a).
    now rewrite clamp_radius in Hfit.
  - apply length_map.
  - rewrite map_map. apply map_ext. intros e. destruct e; reflexivity.
  - rewrite map_map. apply map_ext. intros e. apply clamp_radius.
  - unfold Game.set_balls. simpl. f_equal.
    rewrite map_map. apply map_ext. intros e. apply clamp_clamp.
Qed.

(** ** [MovingBall.update] and [checkGameOver] *)

(** X18. A [MovingBall] moves with the accelerated speed: on each axis,
    with [v] the speed plus the acceleration, [update] leaves the ball at
    its position plus [v] with speed [v], or against one of the two bounds
    with speed [-v]; so the magnitude of the new speed is that of [v], and
    the radius does not change. *)
Theorem moving_ball_update (cv : Canvas) (m : MovingBall.t) (a : Axis) :
  let b := MovingBall.base m in
  let v := speed b a
           + match a with
             | Horizontal => MovingBall.ax m
             | Vertical => MovingBall.ay m
             end in
  let b' := MovingBall.base (MovingBall.update cv m) in
  ((coord b' a = coord b a + v /\ speed b' a = v)
   \/ ((coord b' a = dimension cv a - Ball.radius b
        \/ coord b' a = Ball.radius b)
       /\ speed b' a = v * -1))
  /\ Qabs (speed b' a) == Qabs v
  /\ Ball.radius b' = Ball.radius b.
Proof.
  cbv zeta. unfold MovingBall.update. cbn [MovingBall.base].
  set (b1 := Ball.mk _ _ _ _ _ _).
  assert (Ec : coord b1 a = coord (MovingBall.base m) a)
    by (destruct a; reflexivity).
  assert (Es : speed b1 a = speed (MovingBall.base m) a
                            + match a with
                              | Horizontal => MovingBall.ax m
                              | Vertical => MovingBall.ay m
                              end)
    by (destruct a; reflexivity).
  assert (Er : Ball.radius b1 = Ball.radius (MovingBall.base m)) by reflexivity.
  rewrite <- Ec, <- Es, <- Er.
  pose proof (update_axis cv b1 a) as E. cbv zeta in E.
  assert (C : (coord (Ball.update cv b1) a = coord b1 a + speed b1 a
               /\ speed (Ball.update cv b1) a = speed b1 a)
              \/ ((coord (Ball.update cv b1) a = dimension cv a - Ball.radius b1
                   \/ coord (Ball.update cv b1) a = Ball.radius b1)
                  /\ speed (Ball.update cv b1) a = speed b1 a * -1)).
  { repeat match type of E with context [Qltb ?u ?v] =>
      destruct (Qltb u v) end; injection E as -> ->; auto. }
  split; [exact C | split].
  - destruct C as [[_ ->] | [_ ->]]; [reflexivity |].
    setoid_replace (speed b1 a * -1) with (- speed b1 a) by ring.
    apply Qabs_opp.
  - exact (update_radius cv (Simple b1)).
Qed.

(** X19. [checkGameOver] answers [true] exactly when there are at least
    100 balls and [isGameOver] is not yet set; it then sets the phase to
    [Over] and keeps the balls.  When it answers [false] it changes
    nothing.  Called again right after, it always answers [false]: it
    never fires twice. *)
Theorem checkGameOver_fires_once (g : Game.t) :
  let r := fst (Game.checkGameOver g) in
  let g1 := snd (Game.checkGameOver g) in
  (r = true <->
   (100 <= length (Game.balls g))%nat /\ Game.phase g = Playing)
  /\ (r = false -> g1 = g)
  /\ (r = true -> Game.phase g1 = Over /\ Game.balls g1 = Game.balls g)
  /\ Game.checkGameOver g1 = (false, g1).
Proof.
  cbv zeta.
  destruct (checkGameOver_cases g) as [[Hn Hp] | Hpass].
  - rewrite (checkGameOver_fires g Hn Hp). simpl.
    split; [| split; [discriminate | split; [auto |]]].
    + split; [intros _ | reflexivity].
      split; [exact Hn | now apply phase_Playing].
    + apply checkGameOver_passes. right. reflexivity.
  - rewrite (checkGameOver_passes g Hpass). simpl.
    split; [| split; [reflexivity | split; [discriminate |]]].
    + split; [discriminate |]. intros [Hn Hp]. apply phase_Playing in Hp.
      destruct Hpass as [Hlt | Ht]; [lia | congruence].
    + now apply checkGameOver_passes.
Qed.

(** ** Restart reseeds *)

Lemma addRandomBall_cursor (g : Game.t) (s : Rng) :
  (length (Game.balls g) < 100)%nat ->
  let c' := cursor (snd (Game.addRandomBall g s)) in
  (9 + cursor s <= c' /\ c' <= 11 + cursor s)%nat.
Proof.
  intros Hlt. cbv zeta.
  assert (E : cursor (snd (Game.addRandomBall g s)) = (9 + cursor s)%nat
              \/ cursor (snd (Game.addRandomBall g s)) = (11 + cursor s)%nat).
  { unfold Game.addRandomBall.
    rewrite (checkGameOver_passes g (or_introl Hlt)).
    unfold bind, random, ret.
    destruct (Qltb (draws s (cursor s)) 0.5); [left | right]; reflexivity. }
  destruct E as [-> | ->]; lia.
Qed.

Lemma addRandomBalls_cursor (n : nat) :
  forall (g : Game.t) (s : Rng),
    (length (Game.balls g) + n <= 100)%nat ->
    let c' := cursor (snd (Game.addRandomBalls n g s)) in
    (9 * n + cursor s <= c' /\ c' <= 11 * n + cursor s)%nat.
Proof.
  induction n as [| n IH]; intros g s Hroom; cbv zeta.
  - simpl. lia.
  - simpl Game.addRandomBalls. unfold bind.
    pose proof (addRandomBall_cursor g s) as C. cbv zeta in C.
    destruct (spawn_below_threshold SpawnRandom g s) as [L _]; [lia |].
    simpl spawn in L.
    destruct (Game.addRandomBall g s) as [g1 s1]. simpl in C, L.
    specialize (IH g1 s1). cbv zeta in IH. lia.
Qed.

(** What [restartGame] does, whatever the phase: it is 20 calls of
    [addRandomBall] on the emptied game, then the counter. *)
Lemma restartGame_reseeds (g : Game.t) (s : Rng) :
  let emptied := Game.mk (Game.canvas g) (Game.ctx g) [] (Some false)
                         (mkDom false false true (ballCount (Game.dom g))) in
  let seeded := Game.addRandomBalls 20 emptied s in
  Game.restartGame g s = (Game.updateBallCount (fst seeded), snd seeded)
  /\ (180 + cursor s <= cursor (snd (Game.restartGame g s))
      /\ cursor (snd (Game.restartGame g s)) <= 220 + cursor s)%nat
  /\ (unit_draws (draws s) ->
      Forall (spawned (Game.canvas g) SpawnRandom)
             (Game.balls (fst (Game.restartGame g s)))).
Proof.
  cbv zeta.
  assert (E : Game.restartGame g s =
              (Game.updateBallCount
                 (fst (Game.addRandomBalls 20
                         (Game.mk (Game.canvas g) (Game.ctx g) [] (Some false)
                            (mkDom false false true (ballCount (Game.dom g)))) s)),
               snd (Game.addRandomBalls 20
                      (Game.mk (Game.canvas g) (Game.ctx g) [] (Some false)
                         (mkDom false false true (ballCount (Game.dom g)))) s))).
  { unfold Game.restartGame, bind, ret.
    match goal with |- context [Game.addRandomBalls 20 ?g0 s] =>
      change g0 with (Game.mk (Game.canvas g) (Game.ctx g) [] (Some false)
                        (mkDom false false true (ballCount (Game.dom g))));
      destruct (Game.addRandomBalls 20
                  (Game.mk (Game.canvas g) (Game.ctx g) [] (Some false)
                     (mkDom false false true (ballCount (Game.dom g)))) s)
    end. reflexivity. }
  split; [exact E | split].
  - rewrite E. cbn [snd].
    pose proof (addRandomBalls_cursor 20
                  (Game.mk (Game.canvas g) (Game.ctx g) [] (Some false)
                     (mkDom false false true (ballCount (Game.dom g)))) s) as C.
    cbv zeta in C. simpl length in C. lia.
  - intros U.
    destruct (restartGame_spawns g s) as (bs & s' & -> & _ & Sp).
    exact (Sp U).
Qed.

(** C6. [restartGame] called in phase [Over] discards the balls there are
    (the outcome is the same whatever they were) and reseeds: it is 20
    calls of [addRandomBall] on the emptied game, which read between 180
    and 220 draws and each append a freshly constructed, clamped entity;
    afterwards there are exactly 20 balls, the phase is [Playing] and
    both buttons are enabled again. *)
Theorem restart_from_Over (g : Game.t) (s : Rng) :
  Game.phase g = Over ->
  let g' := fst (Game.restartGame g s) in
  let emptied := Game.mk (Game.canvas g) (Game.ctx g) [] (Some false)
                         (mkDom false false true (ballCount (Game.dom g))) in
  let seeded := Game.addRandomBalls 20 emptied s in
  (forall bs : list Entity,
      fst (Game.restartGame (Game.set_balls g bs) s) = g')
  /\ Game.restartGame g s = (Game.updateBallCount (fst seeded), snd seeded)
  /\ (180 + cursor s <= cursor (snd (Game.restartGame g s))
      /\ cursor (snd (Game.restartGame g s)) <= 220 + cursor s)%nat
  /\ (unit_draws (draws s) ->
      Forall (spawned (Game.canvas g) SpawnRandom) (Game.balls g'))
  /\ length (Game.balls g') = 20%nat
  /\ Game.phase g' = Playing
  /\ addBtn_disabled (Game.dom g') = false
  /\ clearBtn_disabled (Game.dom g') = false.
Proof.
  intros _. cbv zeta.
  destruct (restartGame_result g s) as (L & P & A & C & _).
  destruct (restartGame_reseeds g s) as (E & Cu & Sp).
  split; [intros bs; now rewrite restartGame_forgets |].
  split; [exact E | split; [exact Cu | split; [exact Sp | auto]]].
Qed.

Lemma restart_from_Over_witness :
  let w := session canvas_400x300 page_dom half_draws (repeat ClickAddBtn 81) in
  let g' := fst (Game.restartGame (fst w) (snd w)) in
  (count w = 100%nat /\ Game.phase (fst w) = Over)
  /\ length (Game.balls g') = 20%nat /\ Game.phase g' = Playing.
Proof.
  cbv zeta.
  assert (P : Game.phase (fst (session canvas_400x300 page_dom half_draws
                                 (repeat ClickAddBtn 81))) = Over)
    by (vm_compute; reflexivity).
  split; [split; [vm_compute; reflexivity | exact P] |].
  pose proof (restart_from_Over _ (snd (session canvas_400x300 page_dom
                half_draws (repeat ClickAddBtn 81))) P) as R.
  cbv zeta in R. split; apply R.
Defined.



(** ** [update] in binary64 *)

Module Binary64Facts.
Import PrimFloat.

Lemma update_axis64 (cw ch : float) (b : Binary64.Ball) (a : Axis) :
  let p := (Binary64.coord b a + Binary64.speed b a)%float in
  let r := Binary64.radius b in
  let d := Binary64.dimension cw ch a in
  (Binary64.coord (Binary64.update cw ch b) a,
   Binary64.speed (Binary64.update cw ch b) a) =
  (if ltb d (p + r)%float then ((d - r)%float, (Binary64.speed b a * -1)%float)
   else if ltb (p - r)%float 0%float
        then (r, (Binary64.speed b a * -1)%float)
        else (p, Binary64.speed b a)).
Proof.
  destruct a; unfold Binary64.update; simpl;
    repeat match goal with |- context [ltb ?u ?v] => destruct (ltb u v) end;
    reflexivity.
Qed.

(** The largest draw gives the radius 25 and the speed 3: the sums round
    up to the bounds that exact arithmetic stays below. *)
Lemma largest_draw_reaches_bounds :
  Binary64.new_radius Binary64.largest_draw = 25%float
  /\ Binary64.new_speed Binary64.largest_draw Binary64.largest_draw = 3%float
  /\ ltb (Binary64.largest_draw * 360)%float 360%float = true.
Proof. vm_compute. repeat split. Qed.

(** C3 as stated fails in the arithmetic of the code.  On a canvas 32
    wide a ball of radius 10 at x = 20 + 2^-48 with speed 2 moves to
    22 + 2^-48; the sum of that and the radius rounds to 32, which is not
    greater than the width, so the ball is not reflected and stays beyond
    [clientWidth - radius] = 22. *)
Lemma update_bounds_counterexample :
  let b := Binary64.mkBall 0x1.4000000000001p+4 150 2 2 10 in
  let b' := Binary64.update 32 300 b in
  (leb (2 * Binary64.radius b)%float 32%float = true
   /\ leb (2 * Binary64.radius b)%float 300%float = true)
  /\ Binary64.x b' = 0x1.6000000000001p+4%float
  /\ Binary64.speedX b' = 2%float
  /\ ltb (32 - Binary64.radius b')%float (Binary64.x b') = true.
Proof. vm_compute. repeat split. Qed.

(** C3, amended.  After [update], in the binary64 arithmetic of the code,
    each coordinate is either exactly the bound minus the radius (the far
    test fired, the speed is negated), or exactly the radius (the near
    test fired, the speed is negated), or the moved coordinate, for which
    both tests of the code are false: the rounded sum of coordinate and
    radius is not greater than the bound, and the rounded difference is
    not negative.  In arithmetic without rounding this puts the position
    within [radius, bound - radius] on both axes whenever each dimension
    is at least twice the radius, with nothing asked of the position or
    the velocity before the call. *)
Theorem update_bounds_as_tested :
  (forall (cw ch : float) (b : Binary64.Ball) (a : Axis),
      let d := Binary64.dimension cw ch a in
      let r := Binary64.radius b in
      let p := (Binary64.coord b a + Binary64.speed b a)%float in
      let b' := Binary64.update cw ch b in
      let q := Binary64.coord b' a in
      Binary64.radius b' = r
      /\ ((ltb d (p + r)%float = true
           /\ q = (d - r)%float
           /\ Binary64.speed b' a = (Binary64.speed b a * -1)%float)
          \/ (ltb d (p + r)%float = false /\ ltb (p - r)%float 0%float = true
              /\ q = r
              /\ Binary64.speed b' a = (Binary64.speed b a * -1)%float)
          \/ (q = p
              /\ Binary64.speed b' a = Binary64.speed b a
              /\ ltb d (q + r)%float = false
              /\ ltb (q - r)%float 0%float = false)))
  /\ (forall (cv : Canvas) (e : Entity),
         2 * radius e <= clientWidth cv ->
         2 * radius e <= clientHeight cv ->
         let e' := update cv e in
         let '(x, y) := position e' in
         (radius e' <= x /\ x <= clientWidth cv - radius e')
         /\ (radius e' <= y /\ y <= clientHeight cv - radius e')).
Proof.
  split.
  - intros cw ch b a. cbv zeta.
    split.
    { unfold Binary64.update.
      repeat match goal with |- context [ltb ?u ?v] => destruct (ltb u v) end;
        reflexivity. }
    pose proof (update_axis64 cw ch b a) as E. cbv zeta in E.
    destruct (ltb (Binary64.dimension cw ch a)
                  (Binary64.coord b a + Binary64.speed b a
                   + Binary64.radius b)%float) eqn:Efar.
    + injection E as -> ->. left. auto.
    + destruct (ltb (Binary64.coord b a + Binary64.speed b a
                     - Binary64.radius b)%float 0%float) eqn:Enear.
      * injection E as -> ->. right. left. auto.
      * injection E as -> ->. right. right. auto.
  - intros cv e Hw Hh. cbv zeta. unfold position.
    rewrite update_radius.
    destruct (body_update cv e) as [b [Hr ->]]. rewrite <- Hr in *.
    split.
    + apply (update_axis_within cv b Horizontal Hw).
    + apply (update_axis_within cv b Vertical Hh).
Qed.

End Binary64Facts.
